(** * alx-polly: rate limiter, credential validation, login action and
      session middleware

    A shallow embedding of the TypeScript sources

    - [app/lib/utils/rate-limit.ts]   ([checkRateLimit], [clearRateLimit],
      [getClientIP]),
    - [app/lib/actions/auth-actions.ts] ([validateEmail], [validatePassword],
      [sanitizeInput], [login]),
    - [lib/supabase/middleware.ts]    ([updateSession]),

    together with the properties the specification states about them.

    Conventions of the embedding:
    - a JavaScript string is the list of its UTF-16 code units ([list N]), so
      that [.length] is [length] and the character classes of the regular
      expressions are predicates on code units;
    - JavaScript numbers that hold counters and millisecond timestamps are
      integers ([Z]); [Date.now()] is an explicit argument;
    - the module-level [Map] [attemptStore] is threaded through explicitly as
      a [gmap];
    - a call that may throw returns a [completion], and [try]/[catch] is
      [try_catch]. *)

From Stdlib Require Import ZArith NArith List Bool Lia.
From stdpp Require Import base option gmap list strings.

Set Default Proof Using "Type".

(* ===================================================================== *)
(** ** JavaScript strings                                                 *)
(* ===================================================================== *)

Module JsString.

(** A string value: its sequence of UTF-16 code units. *)
Abbreviation jsstring := (list N).

(** A source literal.  Every literal of the embedded sources is ASCII. *)
Fixpoint js (s : string) : jsstring :=
  match s with
  | EmptyString => []
  | String a s' => Ascii.N_of_ascii a :: js s'
  end.

(** [WhiteSpace] and [LineTerminator] of ECMAScript: the characters
    [String.prototype.trim] removes and the class [\s] matches. *)
Definition isWhiteSpace (c : N) : bool :=
  ((9 <=? c) && (c <=? 13) || (c =? 32) || (c =? 160) || (c =? 5760)
   || (8192 <=? c) && (c <=? 8202) || (c =? 8232) || (c =? 8233)
   || (c =? 8239) || (c =? 8287) || (c =? 12288) || (c =? 65279))%N.

(** [LineTerminator]: what the pattern character [.] refuses. *)
Definition isLineTerminator (c : N) : bool :=
  ((c =? 10) || (c =? 13) || (c =? 8232) || (c =? 8233))%N.

Fixpoint trimStart (s : jsstring) : jsstring :=
  match s with
  | [] => []
  | c :: s' => if isWhiteSpace c then trimStart s' else s
  end.

Definition trimEnd (s : jsstring) : jsstring := rev (trimStart (rev s)).

(** [s.trim()] *)
Definition trim (s : jsstring) : jsstring := trimEnd (trimStart s).

Definition code_eqb (a b : N) : bool := (a =? b)%N.

(** [s.startsWith(p)] *)
Fixpoint startsWith (p s : jsstring) : bool :=
  match p, s with
  | [], _ => true
  | _ :: _, [] => false
  | a :: p', b :: s' => code_eqb a b && startsWith p' s'
  end.

(** [s.includes(needle)] *)
Fixpoint includes (needle s : jsstring) : bool :=
  startsWith needle s ||
  match s with
  | [] => false
  | _ :: s' => includes needle s'
  end.

(** [s.split(sep)[0]] for a one-character separator: the part of [s]
    before the first occurrence of [sep] (all of [s] when there is none). *)
Fixpoint split_first (sep : N) (s : jsstring) : jsstring :=
  match s with
  | [] => []
  | c :: s' => if code_eqb c sep then [] else c :: split_first sep s'
  end.

(** [s.replace(/[<>]/g, '')] generalised to a class: delete every code
    unit of the class. *)
Definition remove_class (cls : N -> bool) (s : jsstring) : jsstring :=
  List.filter (fun c => negb (cls c)) s.

(** Truthiness of a string: non-empty. *)
Definition truthy (s : jsstring) : bool :=
  match s with [] => false | _ => true end.

End JsString.
Import JsString.

(* ===================================================================== *)
(** ** Regular expressions as the sources use them                        *)
(* ===================================================================== *)

Module Regex.

Inductive re : Type :=
| Void : re
| Eps : re
| Cls : (N -> bool) -> re
| Cat : re -> re -> re
| Alt : re -> re -> re
| Star : re -> re.

(** [r+] *)
Definition Plus (r : re) : re := Cat r (Star r).

(** One literal character. *)
Definition Chr (c : N) : re := Cls (code_eqb c).

(** The pattern character [.]: anything but a line terminator. *)
Definition Dot : re := Cls (fun c => negb (isLineTerminator c)).

(** Canonicalisation of the [i] flag (non-unicode mode): an ASCII letter is
    compared in upper case; a code unit above 127 never folds to ASCII. *)
Definition canonicalize (c : N) : N :=
  if ((97 <=? c) && (c <=? 122))%N then (c - 32)%N else c.

Definition Chr_i (c : N) : re :=
  Cls (fun d => code_eqb (canonicalize c) (canonicalize d)).

(** A literal word, case-sensitively and with the [i] flag. *)
Fixpoint Lit (w : jsstring) : re :=
  match w with
  | [] => Eps
  | c :: w' => Cat (Chr c) (Lit w')
  end.

Fixpoint Lit_i (w : jsstring) : re :=
  match w with
  | [] => Eps
  | c :: w' => Cat (Chr_i c) (Lit_i w')
  end.

Fixpoint AltOf (rs : list re) : re :=
  match rs with
  | [] => Void
  | r :: rs' => Alt r (AltOf rs')
  end.

Fixpoint nullable (r : re) : bool :=
  match r with
  | Void => false
  | Eps => true
  | Cls _ => false
  | Cat r1 r2 => nullable r1 && nullable r2
  | Alt r1 r2 => nullable r1 || nullable r2
  | Star _ => true
  end.

(** Brzozowski derivative. *)
Fixpoint deriv (c : N) (r : re) : re :=
  match r with
  | Void => Void
  | Eps => Void
  | Cls p => if p c then Eps else Void
  | Cat r1 r2 =>
      if nullable r1
      then Alt (Cat (deriv c r1) r2) (deriv c r2)
      else Cat (deriv c r1) r2
  | Alt r1 r2 => Alt (deriv c r1) (deriv c r2)
  | Star r1 => Cat (deriv c r1) (Star r1)
  end.

(** The whole of [s] matches [r]: the pattern [^r$]. *)
Fixpoint matches (r : re) (s : jsstring) : bool :=
  match s with
  | [] => nullable r
  | c :: s' => matches (deriv c r) s'
  end.

(** Some prefix of [s] matches [r]: one attempt of the matcher at the
    current position, and what a lookahead [(?=r)] asks there. *)
Fixpoint matches_prefix (r : re) (s : jsstring) : bool :=
  nullable r ||
  match s with
  | [] => false
  | c :: s' => matches_prefix (deriv c r) s'
  end.

(** [/r/.test(s)] and [/(?=r)/.test(s)]: the matcher is tried at every
    start position, from left to right. *)
Fixpoint test_search (r : re) (s : jsstring) : bool :=
  matches_prefix r s ||
  match s with
  | [] => false
  | _ :: s' => test_search r s'
  end.

(** [/r$/.test(s)]: some suffix of [s] matches [r]. *)
Fixpoint test_suffix (r : re) (s : jsstring) : bool :=
  matches r s ||
  match s with
  | [] => false
  | _ :: s' => test_suffix r s'
  end.

(** [/^r$/.test(s)] *)
Definition test_full (r : re) (s : jsstring) : bool := matches r s.

(** The language of a regular expression. *)
Inductive Matches : re -> jsstring -> Prop :=
| MEps : Matches Eps []
| MCls p c : p c = true -> Matches (Cls p) [c]
| MCat r1 r2 s1 s2 :
    Matches r1 s1 -> Matches r2 s2 -> Matches (Cat r1 r2) (s1 ++ s2)
| MAltL r1 r2 s : Matches r1 s -> Matches (Alt r1 r2) s
| MAltR r1 r2 s : Matches r2 s -> Matches (Alt r1 r2) s
| MStarNil r : Matches (Star r) []
| MStarCons r s1 s2 :
    Matches r s1 -> Matches (Star r) s2 -> Matches (Star r) (s1 ++ s2).

End Regex.

(* ===================================================================== *)
(** ** app/lib/utils/rate-limit.ts                                        *)
(* ===================================================================== *)

Module RateLimit.
Local Open Scope Z_scope.

Record RateLimitEntry : Type := mkEntry {
  count : Z;
  lastAttempt : Z;
  blocked : bool
}.

(** The object [checkRateLimit] returns. *)
Record RateLimitResult : Type := mkResult {
  allowed : bool;
  remainingAttempts : Z;
  resetTime : Z
}.

(** [const attemptStore = new Map<string, RateLimitEntry>()] *)
Abbreviation attemptStore := (gmap jsstring RateLimitEntry).

(** The body of the [setInterval] callback, run at time [now]: entries
    whose last attempt is more than one hour old are deleted. *)
Definition cleanup (now : Z) (store : attemptStore) : attemptStore :=
  filter (fun kv => ~ (now - lastAttempt (snd kv) > 60 * 60 * 1000)) store.

(** [checkRateLimit(identifier, maxAttempts, windowMs)], with the value
    of [Date.now()] and the store made explicit.  In the third branch the
    source updates the stored object in place ([entry.count += 1],
    [entry.lastAttempt = now], [entry.blocked = true]) and puts it back
    under the same key. *)
Definition checkRateLimit (identifier : jsstring) (maxAttempts windowMs : Z)
    (now : Z) (store : attemptStore) : RateLimitResult * attemptStore :=
  match store !! identifier with
  | None =>
      (* First attempt *)
      (mkResult true (maxAttempts - 1) (now + windowMs),
       <[identifier := mkEntry 1 now false]> store)
  | Some entry =>
      if now - lastAttempt entry >? windowMs then
        (* Reset the counter *)
        (mkResult true (maxAttempts - 1) (now + windowMs),
         <[identifier := mkEntry 1 now false]> store)
      else
        (* Increment attempt counter *)
        let entry1 := mkEntry (count entry + 1) now (blocked entry) in
        if count entry1 >? maxAttempts then
          let entry2 := mkEntry (count entry1) (lastAttempt entry1) true in
          (mkResult false 0 (lastAttempt entry2 + windowMs),
           <[identifier := entry2]> store)
        else
          (mkResult true (maxAttempts - count entry1)
             (lastAttempt entry1 + windowMs),
           <[identifier := entry1]> store)
  end.

(** [clearRateLimit(identifier)] *)
Definition clearRateLimit (identifier : jsstring) (store : attemptStore)
    : attemptStore :=
  delete identifier store.

(** What [getClientIP] reads of a request: the results of
    [headers.get('x-forwarded-for')] and [headers.get('x-real-ip')]
    ([None] for [null]). *)
Record RequestHeaders : Type := mkHeaders {
  x_forwarded_for : option jsstring;
  x_real_ip : option jsstring
}.

Definition truthy_opt (o : option jsstring) : bool :=
  match o with Some s => truthy s | None => false end.

(** [getClientIP(request)] *)
Definition getClientIP (request : RequestHeaders) : jsstring :=
  let forwarded := x_forwarded_for request in
  let realIP := x_real_ip request in
  if truthy_opt forwarded then trim (split_first 44 (default [] forwarded))
  else if truthy_opt realIP then default [] realIP
  else (* Fallback *) js "unknown".

(** Successive calls for one identifier with fixed limits, at the given
    times: the decisions in order, and the final store. *)
Fixpoint checkRateLimit_seq (identifier : jsstring)
    (maxAttempts windowMs : Z) (times : list Z) (store : attemptStore)
    : list RateLimitResult * attemptStore :=
  match times with
  | [] => ([], store)
  | now :: times' =>
      let '(r, store1) :=
        checkRateLimit identifier maxAttempts windowMs now store in
      let '(rs, store2) :=
        checkRateLimit_seq identifier maxAttempts windowMs times' store1 in
      (r :: rs, store2)
  end.

End RateLimit.
Import RateLimit.

(* ===================================================================== *)
(** ** app/lib/actions/auth-actions.ts                                    *)
(* ===================================================================== *)

Module AuthActions.
Import Regex.
Local Open Scope Z_scope.

(** *** Completions and the store-passing monad of a server action *)

(** How an awaited call ends: with a value, or by throwing. *)
Inductive completion (A : Type) : Type :=
| Normal : A -> completion A
| Throw : jsstring -> completion A.
Arguments Normal {A} _.
Arguments Throw {A} _.

Definition action (A : Type) : Type :=
  attemptStore -> completion A * attemptStore.

Definition ret {A} (a : A) : action A := fun st => (Normal a, st).

Definition bind {A B} (m : action A) (k : A -> action B) : action B :=
  fun st =>
    match m st with
    | (Normal a, st') => k a st'
    | (Throw e, st') => (Throw e, st')
    end.

(** An awaited call to the outside world: no effect on the store. *)
Definition await {A} (c : completion A) : action A := fun st => (c, st).

(** A call that reads and updates the store and does not throw. *)
Definition on_store {A} (f : attemptStore -> A * attemptStore) : action A :=
  fun st => let '(a, st') := f st in (Normal a, st').

(** [try { m } catch (error) { h error }] *)
Definition try_catch {A} (m : action A) (h : jsstring -> action A)
    : action A :=
  fun st =>
    match m st with
    | (Normal a, st') => (Normal a, st')
    | (Throw e, st') => h e st'
    end.

Notation "'let*' x ':=' m 'in' k" := (bind m (fun x => k))
  (at level 10, x pattern, m at level 100, k at level 200).

(** *** Input validation helpers *)

(** [[^\s@]] *)
Definition notSpaceNorAt (c : N) : bool :=
  negb (isWhiteSpace c || code_eqb c 64).

(** [/^[^\s@]+@[^\s@]+\.[^\s@]+$/] between its anchors. *)
Definition emailRegex : re :=
  Cat (Plus (Cls notSpaceNorAt))
    (Cat (Chr 64)
       (Cat (Plus (Cls notSpaceNorAt))
          (Cat (Chr 46) (Plus (Cls notSpaceNorAt))))).

Definition validateEmail (email : jsstring) : bool :=
  test_full emailRegex email && (Z.of_nat (length email) <=? 254).

Definition isLower (c : N) : bool := ((97 <=? c) && (c <=? 122))%N.
Definition isUpper (c : N) : bool := ((65 <=? c) && (c <=? 90))%N.
Definition isDigit (c : N) : bool := ((48 <=? c) && (c <=? 57))%N.

(** The members of the bracket class of the last password rule; the
    double quote is given by its code, 34. *)
Definition specialChars : jsstring :=
  js "!@#$%^&*()_+-=[]{};':\|,.<>/?" ++ [34%N].

Definition isSpecial (c : N) : bool := existsb (code_eqb c) specialChars.

(** [/(?=.*[cls])/]: a lookahead for any run of [.] followed by one
    character of the class. *)
Definition lookahead_has (cls : N -> bool) : re := Cat (Star Dot) (Cls cls).

Record PasswordValidation : Type := mkValidation {
  isValid : bool;
  message : option jsstring
}.

Definition msg_too_short : jsstring :=
  js "Password must be at least 8 characters long".
Definition msg_too_long : jsstring :=
  js "Password must be less than 128 characters".
Definition msg_lowercase : jsstring :=
  js "Password must contain at least one lowercase letter".
Definition msg_uppercase : jsstring :=
  js "Password must contain at least one uppercase letter".
Definition msg_number : jsstring :=
  js "Password must contain at least one number".
Definition msg_special : jsstring :=
  js "Password must contain at least one special character".

Definition validatePassword (password : jsstring) : PasswordValidation :=
  if Z.of_nat (length password) <? 8 then
    mkValidation false (Some msg_too_short)
  else if Z.of_nat (length password) >? 128 then
    mkValidation false (Some msg_too_long)
  else if negb (test_search (lookahead_has isLower) password) then
    mkValidation false (Some msg_lowercase)
  else if negb (test_search (lookahead_has isUpper) password) then
    mkValidation false (Some msg_uppercase)
  else if negb (test_search (lookahead_has isDigit) password) then
    mkValidation false (Some msg_number)
  else if negb (test_search (lookahead_has isSpecial) password) then
    mkValidation false (Some msg_special)
  else
    mkValidation true None.

(** [/[<>]/] *)
Definition isAngle (c : N) : bool := code_eqb c 60 || code_eqb c 62.

Definition sanitizeInput (input : jsstring) : jsstring :=
  remove_class isAngle (trim input).

(** *** [login] *)

Record LoginFormData : Type := mkLoginData {
  email : jsstring;
  password : jsstring
}.

(** The error object of the provider. *)
Record AuthError : Type := mkAuthError { error_message : jsstring }.

(** What [login] returns: [{ error: string | null }]. *)
Record ActionResult : Type := mkActionResult { error : option jsstring }.

(** The world a call of [login] runs in. *)
Record LoginEnv : Type := mkLoginEnv {
  (** [await headers()] *)
  env_headers : completion RequestHeaders;
  (** [Date.now()] inside [checkRateLimit] *)
  env_now : Z;
  (** [new Date(t).toLocaleTimeString()] *)
  env_toLocaleTimeString : Z -> jsstring;
  (** [await createClient()] *)
  env_createClient : completion unit;
  (** [await supabase.auth.signInWithPassword({ email, password })]:
      the [error] field of the answer, or a thrown exception *)
  env_signInWithPassword : jsstring -> jsstring -> completion (option AuthError)
}.

Definition err_required : jsstring := js "Email and password are required".
Definition err_invalid_email : jsstring :=
  js "Please enter a valid email address".
Definition err_password_required : jsstring := js "Password is required".
Definition err_invalid_credentials : jsstring :=
  js "Invalid email or password".
Definition err_email_not_verified : jsstring :=
  js "Please verify your email address before signing in".
Definition err_provider_rate_limited : jsstring :=
  js "Too many login attempts. Please try again later".
Definition err_authentication_failed : jsstring :=
  js "Authentication failed. Please try again".
Definition err_unexpected : jsstring :=
  js "An unexpected error occurred. Please try again".

Definition err_rate_limited (env : LoginEnv) (resetTime : Z) : jsstring :=
  js "Too many login attempts. Please try again after "
    ++ env_toLocaleTimeString env resetTime.

(** The [if (error) { ... }] block of [login]. *)
Definition login_error_message (error : AuthError) : jsstring :=
  if includes (js "Invalid login credentials") (error_message error) then
    err_invalid_credentials
  else if includes (js "Email not confirmed") (error_message error) then
    err_email_not_verified
  else if includes (js "Too many requests") (error_message error) then
    err_provider_rate_limited
  else
    err_authentication_failed.

(** The rate-limit key of a request: [`login:${clientIP}`]. *)
Definition login_key (h : RequestHeaders) : jsstring :=
  js "login:" ++ getClientIP h.

(** The [try] block of [login]. *)
Definition login_try (env : LoginEnv) (data : LoginFormData)
    : action ActionResult :=
  let* headersList := await (env_headers env) in
  let clientIP := getClientIP headersList in
  let* rateLimitResult :=
    on_store (checkRateLimit (js "login:" ++ clientIP) 5 (15 * 60 * 1000)
                (env_now env)) in
  if negb (allowed rateLimitResult) then
    ret (mkActionResult
           (Some (err_rate_limited env (resetTime rateLimitResult))))
  else if negb (truthy (email data)) || negb (truthy (password data)) then
    ret (mkActionResult (Some err_required))
  else
    let email := sanitizeInput (email data) in
    let password := password data in
    if negb (validateEmail email) then
      ret (mkActionResult (Some err_invalid_email))
    else if Z.of_nat (length password) <? 1 then
      ret (mkActionResult (Some err_password_required))
    else
      let* _ := await (env_createClient env) in
      let* error := await (env_signInWithPassword env email password) in
      match error with
      | Some e => ret (mkActionResult (Some (login_error_message e)))
      | None => ret (mkActionResult None)
      end.

(** [export async function login(data)] *)
Definition login (env : LoginEnv) (data : LoginFormData)
    : action ActionResult :=
  try_catch (login_try env data)
    (fun _ => ret (mkActionResult (Some err_unexpected))).

(** Successive calls of [login], each in its own world. *)
Fixpoint login_seq (calls : list (LoginEnv * LoginFormData))
    (store : attemptStore)
    : list (completion ActionResult) * attemptStore :=
  match calls with
  | [] => ([], store)
  | (env, data) :: calls' =>
      let '(r, store1) := login env data store in
      let '(rs, store2) := login_seq calls' store1 in
      (r :: rs, store2)
  end.

End AuthActions.
Import AuthActions.

(* ===================================================================== *)
(** ** lib/supabase/middleware.ts                                         *)
(* ===================================================================== *)

Module Middleware.
Import Regex.

Definition jsstring_eqb (a b : jsstring) : bool := bool_decide (a = b).

(** *** URLs and their query parameters *)

Record URL : Type := mkURL {
  origin : jsstring;
  pathname : jsstring;
  searchParams : list (jsstring * jsstring)
}.

(** [URLSearchParams.get(name)]: the value of the first pair of that
    name. *)
Fixpoint searchParams_get (name : jsstring)
    (ps : list (jsstring * jsstring)) : option jsstring :=
  match ps with
  | [] => None
  | (k, v) :: ps' =>
      if jsstring_eqb k name then Some v else searchParams_get name ps'
  end.

Definition searchParams_delete (name : jsstring)
    (ps : list (jsstring * jsstring)) : list (jsstring * jsstring) :=
  List.filter (fun kv => negb (jsstring_eqb (fst kv) name)) ps.

(** [URLSearchParams.set(name, value)]: the first pair of that name takes
    the value and the other pairs of that name are removed; when there is
    none the pair is appended. *)
Fixpoint searchParams_set (name value : jsstring)
    (ps : list (jsstring * jsstring)) : list (jsstring * jsstring) :=
  match ps with
  | [] => [(name, value)]
  | (k, v) :: ps' =>
      if jsstring_eqb k name
      then (k, value) :: searchParams_delete name ps'
      else (k, v) :: searchParams_set name value ps'
  end.

(** *** Requests and responses *)

Record Cookie : Type := mkCookie {
  cookie_name : jsstring;
  cookie_value : jsstring;
  cookie_options : jsstring
}.

Record NextRequest : Type := mkRequest {
  nextUrl : URL;
  request_cookies : list (jsstring * jsstring)
}.

(** [NextResponse.next(...)] lets the request continue;
    [NextResponse.redirect(url)] answers with a redirection to [url]. *)
Inductive ResponseKind : Type :=
| Next : ResponseKind
| Redirect : URL -> ResponseKind.

(** A response: what it does, its header map (names are case-insensitive
    and kept in lower case) and the cookies set on it.  The [Location]
    header of a redirection is the [URL] of its [Redirect]. *)
Record NextResponse : Type := mkResponse {
  kind : ResponseKind;
  headers : gmap jsstring jsstring;
  cookies : list Cookie
}.

Definition toLowerAscii (c : N) : N :=
  if ((65 <=? c) && (c <=? 90))%N then (c + 32)%N else c.

Definition header_name (name : jsstring) : jsstring := map toLowerAscii name.

(** [response.headers.set(name, value)] *)
Definition headers_set (name value : jsstring) (r : NextResponse)
    : NextResponse :=
  mkResponse (kind r) (<[header_name name := value]> (headers r)) (cookies r).

(** [response.headers.get(name)] *)
Definition headers_get (name : jsstring) (r : NextResponse)
    : option jsstring :=
  headers r !! header_name name.

(** [response.cookies.set(name, value, options)] *)
Definition cookies_set (c : Cookie) (r : NextResponse) : NextResponse :=
  mkResponse (kind r) (headers r)
    (List.filter
       (fun c' => negb (jsstring_eqb (cookie_name c') (cookie_name c)))
       (cookies r) ++ [c]).

Definition NextResponse_next : NextResponse := mkResponse Next ∅ [].

Definition NextResponse_redirect (url : URL) : NextResponse :=
  mkResponse (Redirect url) ∅ [].

Record User : Type := mkUser { user_id : jsstring }.

(** What [await supabase.auth.getUser()] did: the principal it resolved
    ([None] for [null]) and, when it refreshed the session, the cookies it
    handed to the [setAll] callback. *)
Record GetUserOutcome : Type := mkGetUser {
  user : option User;
  cookiesToSet : option (list Cookie)
}.

Definition publicPaths : list jsstring :=
  [ js "/login"; js "/register"; js "/auth"; js "/_next";
    js "/favicon.ico"; js "/api" ].

(** [/\.(svg|png|jpg|jpeg|gif|webp|ico|css|js)$/i] before its anchor. *)
Definition staticFileRegex : re :=
  Cat (Chr_i 46)
    (AltOf (map Lit_i
              [ js "svg"; js "png"; js "jpg"; js "jpeg"; js "gif";
                js "webp"; js "ico"; js "css"; js "js" ])).

Definition isPublicPath (path : jsstring) : bool :=
  existsb (fun p => startsWith p path) publicPaths.

Definition isStaticFile (path : jsstring) : bool :=
  test_suffix staticFileRegex path.

(** The four [supabaseResponse.headers.set] calls. *)
Definition securityHeaders : list (jsstring * jsstring) :=
  [ (js "X-Frame-Options", js "DENY");
    (js "X-Content-Type-Options", js "nosniff");
    (js "Referrer-Policy", js "strict-origin-when-cross-origin");
    (js "X-XSS-Protection", js "1; mode=block") ].

(** [export async function updateSession(request)].  The [setAll]
    callback, when the provider calls it during [getUser], replaces
    [supabaseResponse] by a new [NextResponse.next] and sets the cookies
    on it. *)
Definition updateSession (request : NextRequest) (auth : GetUserOutcome)
    : NextResponse :=
  let supabaseResponse := NextResponse_next in
  let supabaseResponse :=
    match cookiesToSet auth with
    | Some cs => fold_left (fun r c => cookies_set c r) cs NextResponse_next
    | None => supabaseResponse
    end in
  let user := user auth in
  (* Security headers *)
  let supabaseResponse :=
    headers_set (js "X-Frame-Options") (js "DENY") supabaseResponse in
  let supabaseResponse :=
    headers_set (js "X-Content-Type-Options") (js "nosniff")
      supabaseResponse in
  let supabaseResponse :=
    headers_set (js "Referrer-Policy")
      (js "strict-origin-when-cross-origin") supabaseResponse in
  let supabaseResponse :=
    headers_set (js "X-XSS-Protection") (js "1; mode=block")
      supabaseResponse in
  let path := pathname (nextUrl request) in
  if isPublicPath path || isStaticFile path then supabaseResponse
  else
    match user with
    | None =>
        (* Redirect unauthenticated users to login *)
        let url := nextUrl request in
        let url := mkURL (origin url) (js "/login") (searchParams url) in
        let url :=
          mkURL (origin url) (pathname url)
            (searchParams_set (js "redirect") path (searchParams url)) in
        NextResponse_redirect url
    | Some _ => supabaseResponse
    end.

(** A response carries the four security headers with their values. *)
Definition has_security_headers (r : NextResponse) : Prop :=
  Forall (fun nv => headers_get (fst nv) r = Some (snd nv)) securityHeaders.

End Middleware.
Import Middleware.

(* ===================================================================== *)
(** ** Vocabulary of the specification                                    *)
(* ===================================================================== *)

(** The password policy in the words of the specification: six rules in a
    fixed order, each with the reason reported when it is violated. *)
Module PasswordPolicy.
Local Open Scope Z_scope.

Inductive PasswordRule : Type :=
| TooShort | TooLong | MissingLowercase | MissingUppercase
| MissingDigit | MissingSpecial.

Definition rules_in_order : list PasswordRule :=
  [ TooShort; TooLong; MissingLowercase; MissingUppercase;
    MissingDigit; MissingSpecial ].

(** A password violates a rule. *)
Definition violates (s : jsstring) (rule : PasswordRule) : bool :=
  match rule with
  | TooShort => Z.of_nat (length s) <? 8
  | TooLong => 128 <? Z.of_nat (length s)
  | MissingLowercase => negb (existsb isLower s)
  | MissingUppercase => negb (existsb isUpper s)
  | MissingDigit => negb (existsb isDigit s)
  | MissingSpecial => negb (existsb isSpecial s)
  end.

Definition reason (rule : PasswordRule) : jsstring :=
  match rule with
  | TooShort => msg_too_short
  | TooLong => msg_too_long
  | MissingLowercase => msg_lowercase
  | MissingUppercase => msg_uppercase
  | MissingDigit => msg_number
  | MissingSpecial => msg_special
  end.

(** The first rule of the list, in order, that the password violates. *)
Definition first_violated (s : jsstring) : option PasswordRule :=
  List.find (violates s) rules_in_order.

Definition verdict (o : option PasswordRule) : PasswordValidation :=
  match o with
  | Some rule => mkValidation false (Some (reason rule))
  | None => mkValidation true None
  end.

End PasswordPolicy.

(** Timing of a run of calls for one identifier. *)
Module Timing.
Local Open Scope Z_scope.

(** Every call of [times] comes at most [windowMs] after the call before
    it, the first one at most [windowMs] after [prev]. *)
Fixpoint paced (windowMs prev : Z) (times : list Z) : Prop :=
  match times with
  | [] => True
  | t :: times' => t - prev <= windowMs /\ paced windowMs t times'
  end.

(** A call at [t] falls in the window of length [windowMs] that the call
    at [start] opened. *)
Definition in_window (windowMs start t : Z) : Prop :=
  start <= t <= start + windowMs.

(** A call at [now] starts a new window for [identifier]: the store has no
    entry for it, or the entry has expired. *)
Definition opens_window (identifier : jsstring) (windowMs now : Z)
    (store : attemptStore) : Prop :=
  match store !! identifier with
  | None => True
  | Some entry => now - lastAttempt entry > windowMs
  end.

(** The decision for a call at [now] that brings the count to [n]. *)
Definition decision (maxAttempts windowMs now n : Z) : RateLimitResult :=
  if n >? maxAttempts then mkResult false 0 (now + windowMs)
  else mkResult true (maxAttempts - n) (now + windowMs).

(** The decisions of a paced run that starts from count [n]. *)
Fixpoint decisions (maxAttempts windowMs n : Z) (times : list Z)
    : list RateLimitResult :=
  match times with
  | [] => []
  | t :: times' =>
      decision maxAttempts windowMs t (n + 1)
        :: decisions maxAttempts windowMs (n + 1) times'
  end.

End Timing.

(** Sample worlds and requests, used to instantiate the theorems. *)
Module Samples.
Local Open Scope Z_scope.

Definition client_headers : RequestHeaders :=
  mkHeaders (Some (js "203.0.113.7")) None.

Definition credentials : LoginFormData :=
  mkLoginData (js "user@example.com") (js "Valid1Pass!").

(** A world in which the provider accepts the credentials. *)
Definition env_accepting (now : Z) : LoginEnv :=
  mkLoginEnv (Normal client_headers) now (fun _ => js "12:15:01 AM")
    (Normal tt) (fun _ _ => Normal None).

(** A world in which the provider answers with the given error text. *)
Definition env_rejecting (now : Z) (text : jsstring) : LoginEnv :=
  mkLoginEnv (Normal client_headers) now (fun _ => js "12:15:01 AM")
    (Normal tt) (fun _ _ => Normal (Some (mkAuthError text))).

Definition request_to (path : jsstring) : NextRequest :=
  mkRequest (mkURL (js "http://localhost:3000") path []) [].

Definition anonymous : GetUserOutcome := mkGetUser None None.

Definition signed_in : GetUserOutcome :=
  mkGetUser (Some (mkUser (js "user-1"))) None.

End Samples.

(* ===================================================================== *)
(** ** app/lib/actions/auth-actions.ts: register, logout, resend          *)
(* ===================================================================== *)

Module Registration.
Import Regex.
Local Open Scope Z_scope.

(** [[a-zA-Z\s'-]] *)
Definition isNameChar (c : N) : bool :=
  isLower c || isUpper c || isWhiteSpace c || code_eqb c 39 || code_eqb c 45.

(** [/^[a-zA-Z\s'-]+$/] between its anchors. *)
Definition nameRegex : re := Plus (Cls isNameChar).

Record RegisterFormData : Type := mkRegisterData {
  reg_name : jsstring;
  reg_email : jsstring;
  reg_password : jsstring
}.

(** The [data] of the provider's answer to [signUp]: the created user and
    the session, each possibly [null]. *)
Record SignUpData : Type := mkSignUpData {
  signUp_user : option jsstring;
  signUp_session : option jsstring
}.

Record SignUpAnswer : Type := mkSignUpAnswer {
  signUp_data : SignUpData;
  signUp_error : option AuthError
}.

(** What [register] and [resendVerificationEmail] return:
    [{ error, message?, requiresVerification? }]; an absent
    [requiresVerification] is [false]. *)
Record ActionReply : Type := mkReply {
  reply_error : option jsstring;
  reply_message : option jsstring;
  requiresVerification : bool
}.

Definition reply_of_error (e : jsstring) : ActionReply :=
  mkReply (Some e) None false.

Record RegisterEnv : Type := mkRegisterEnv {
  renv_headers : completion RequestHeaders;
  renv_now : Z;
  renv_toLocaleTimeString : Z -> jsstring;
  renv_createClient : completion unit;
  (** [await supabase.auth.signUp({ email, password, options: { data: { name } } })] *)
  renv_signUp : jsstring -> jsstring -> jsstring -> completion SignUpAnswer
}.

Definition rerr_required : jsstring :=
  js "Name, email, and password are required".
Definition rerr_name_short : jsstring :=
  js "Name must be at least 2 characters long".
Definition rerr_name_long : jsstring :=
  js "Name must be less than 50 characters long".
Definition rerr_name_chars : jsstring :=
  js "Name can only contain letters, spaces, hyphens, and apostrophes".
Definition rerr_exists : jsstring :=
  js "An account with this email already exists".
Definition rerr_weak_password : jsstring :=
  js "Password does not meet security requirements".
Definition rerr_signup_disabled : jsstring :=
  js "Registration is currently disabled".
Definition rerr_failed : jsstring := js "Registration failed. Please try again".
Definition rmsg_verify : jsstring :=
  js "Registration successful! Please check your email to verify your account before signing in.".

Definition rerr_rate_limited (env : RegisterEnv) (resetTime : Z) : jsstring :=
  js "Too many registration attempts. Please try again after "
    ++ renv_toLocaleTimeString env resetTime.

(** The [if (error) { ... }] block of [register]. *)
Definition register_error_message (error : AuthError) : jsstring :=
  if includes (js "User already registered") (error_message error) then
    rerr_exists
  else if includes (js "Password should be") (error_message error) then
    rerr_weak_password
  else if includes (js "Unable to validate email address")
            (error_message error) then
    err_invalid_email
  else if includes (js "Signup is disabled") (error_message error) then
    rerr_signup_disabled
  else
    rerr_failed.

(** The rate-limit key of a request: [`register:${clientIP}`]. *)
Definition register_key (h : RequestHeaders) : jsstring :=
  js "register:" ++ getClientIP h.

(** The [try] block of [register]. *)
Definition register_try (env : RegisterEnv) (data : RegisterFormData)
    : action ActionReply :=
  let* headersList := await (renv_headers env) in
  let clientIP := getClientIP headersList in
  let* rateLimitResult :=
    on_store (checkRateLimit (js "register:" ++ clientIP) 3 (60 * 60 * 1000)
                (renv_now env)) in
  if negb (allowed rateLimitResult) then
    ret (reply_of_error (rerr_rate_limited env (resetTime rateLimitResult)))
  else if negb (truthy (reg_email data)) || negb (truthy (reg_password data))
          || negb (truthy (reg_name data)) then
    ret (reply_of_error rerr_required)
  else
    let email := sanitizeInput (reg_email data) in
    let name := sanitizeInput (reg_name data) in
    let password := reg_password data in
    if negb (validateEmail email) then
      ret (reply_of_error err_invalid_email)
    else if Z.of_nat (length name) <? 2 then
      ret (reply_of_error rerr_name_short)
    else if Z.of_nat (length name) >? 50 then
      ret (reply_of_error rerr_name_long)
    else if negb (test_full nameRegex name) then
      ret (reply_of_error rerr_name_chars)
    else
      let passwordValidation := validatePassword password in
      if negb (isValid passwordValidation) then
        ret (mkReply (message passwordValidation) None false)
      else
        let* _ := await (renv_createClient env) in
        let* answer := await (renv_signUp env email password name) in
        match signUp_error answer with
        | Some e => ret (reply_of_error (register_error_message e))
        | None =>
            match signUp_user (signUp_data answer),
                  signUp_session (signUp_data answer) with
            | Some _, None => ret (mkReply None (Some rmsg_verify) true)
            | _, _ => ret (mkReply None None false)
            end
        end.

(** [export async function register(data)] *)
Definition register (env : RegisterEnv) (data : RegisterFormData)
    : action ActionReply :=
  try_catch (register_try env data)
    (fun _ => ret (reply_of_error err_unexpected)).

(** *** [logout] and [resendVerificationEmail]: no rate limiter involved *)

Definition cbind {A B} (c : completion A) (k : A -> completion B)
    : completion B :=
  match c with
  | Normal a => k a
  | Throw x => Throw x
  end.

Definition ctry {A} (c : completion A) (h : jsstring -> completion A)
    : completion A :=
  match c with
  | Normal a => Normal a
  | Throw x => h x
  end.

Record LogoutEnv : Type := mkLogoutEnv {
  lenv_createClient : completion unit;
  (** [await supabase.auth.signOut()]: its [error] field *)
  lenv_signOut : completion (option AuthError)
}.

Definition lerr_failed : jsstring := js "Failed to sign out. Please try again".
Definition lerr_unexpected : jsstring :=
  js "An unexpected error occurred during sign out".

(** [export async function logout()] *)
Definition logout (env : LogoutEnv) : completion ActionResult :=
  ctry
    (cbind (lenv_createClient env) (fun _ =>
     cbind (lenv_signOut env) (fun error =>
     match error with
     | Some _ => Normal (mkActionResult (Some lerr_failed))
     | None => Normal (mkActionResult None)
     end)))
    (fun _ => Normal (mkActionResult (Some lerr_unexpected))).

Record ResendEnv : Type := mkResendEnv {
  venv_createClient : completion unit;
  (** [await supabase.auth.resend({ type: 'signup', email })] *)
  venv_resend : jsstring -> completion (option AuthError)
}.

Definition verr_required : jsstring := js "Email is required".
Definition verr_too_many : jsstring :=
  js "Too many verification emails sent. Please wait before requesting another".
Definition verr_failed : jsstring :=
  js "Failed to send verification email. Please try again".
Definition vmsg_sent : jsstring := js "Verification email sent successfully".

(** [export async function resendVerificationEmail(email)] *)
Definition resendVerificationEmail (env : ResendEnv) (email : jsstring)
    : completion ActionReply :=
  ctry
    (if negb (truthy email) then Normal (reply_of_error verr_required)
     else
       let cleanEmail := sanitizeInput email in
       if negb (validateEmail cleanEmail) then
         Normal (reply_of_error err_invalid_email)
       else
         cbind (venv_createClient env) (fun _ =>
         cbind (venv_resend env cleanEmail) (fun error =>
         match error with
         | Some e =>
             if includes (js "Email rate limit exceeded") (error_message e)
             then Normal (reply_of_error verr_too_many)
             else Normal (reply_of_error verr_failed)
         | None => Normal (mkReply None (Some vmsg_sent) false)
         end)))
    (fun _ => Normal (reply_of_error err_unexpected)).

End Registration.
Import Registration.

(* ===================================================================== *)
(** ** app/(auth)/login/page.tsx: handleSubmit                            *)
(* ===================================================================== *)

Module LoginPage.

(** What [handleSubmit] leaves once [login] has answered: the state of the
    component, and the address assigned to [window.location.href], if
    any. *)
Record PageOutcome : Type := mkPageOutcome {
  page_error : option jsstring;
  page_loading : bool;
  showResendVerification : bool;
  page_email : jsstring;
  navigated_to : option jsstring
}.

(** The part of [handleSubmit] after [await login(...)].  [location] is
    [window.location]; [new URLSearchParams(window.location.search)] is the
    list of its query parameters.  Before the call the handler has set
    [loading] and cleared [error] and [showResendVerification]. *)
Definition handleSubmit_after (emailValue : jsstring) (location : URL)
    (result : ActionResult) : PageOutcome :=
  match error result with
  | Some e =>
      if truthy e then
        mkPageOutcome (Some e) false
          (includes (js "verify your email") e) emailValue None
      else
        let redirectPath :=
          searchParams_get (js "redirect") (searchParams location) in
        mkPageOutcome None true false emailValue
          (Some (if truthy_opt redirectPath then default [] redirectPath
                 else js "/polls"))
  | None =>
      let redirectPath :=
        searchParams_get (js "redirect") (searchParams location) in
      mkPageOutcome None true false emailValue
        (Some (if truthy_opt redirectPath then default [] redirectPath
               else js "/polls"))
  end.

(** [handleSubmit] with the server action made explicit: the form values
    go to [login], and the answer is handled as above.  A rejected call
    leaves the handler before any of this. *)
Definition handleSubmit (env : LoginEnv) (emailValue password : jsstring)
    (location : URL) (store : attemptStore)
    : completion PageOutcome * attemptStore :=
  match login env (mkLoginData emailValue password) store with
  | (Normal result, store') =>
      (Normal (handleSubmit_after emailValue location result), store')
  | (Throw x, store') => (Throw x, store')
  end.

End LoginPage.
Import LoginPage.

(* ===================================================================== *)
(** ** app/lib/actions/poll-actions.ts: createPoll, updatePoll            *)
(* ===================================================================== *)

Module PollActions.
Local Open Scope Z_scope.

(** The fields read from the [FormData]: [get("question")] ([None] for
    [null]) and [getAll("options")]. *)
Record PollForm : Type := mkPollForm {
  form_question : option jsstring;
  form_options : list jsstring
}.

Record PollRow : Type := mkPollRow {
  row_user_id : jsstring;
  row_question : jsstring;
  row_options : list jsstring
}.

(** What an action asks of the outside: a write to a table, or a cache
    invalidation. *)
Inductive Effect : Type :=
| InsertPoll (row : PollRow)
| UpdatePoll (question : jsstring) (options : list jsstring)
    (eq_id eq_user_id : jsstring)
| RevalidatePath (path : jsstring).

(** The answer of [supabase.auth.getUser()]. *)
Record GetUserAnswer : Type := mkGetUserAnswer {
  answer_user : option User;
  answer_error : option AuthError
}.

Record PollEnv : Type := mkPollEnv {
  penv_createClient : completion unit;
  penv_getUser : completion GetUserAnswer;
  (** the [error] field of the answer to a write *)
  penv_write : Effect -> completion (option AuthError)
}.

(** An action that records the effects it asks for. *)
Definition io (A : Type) : Type := list Effect -> completion A * list Effect.

Definition io_ret {A} (a : A) : io A := fun log => (Normal a, log).

Definition io_bind {A B} (m : io A) (k : A -> io B) : io B :=
  fun log =>
    match m log with
    | (Normal a, log') => k a log'
    | (Throw x, log') => (Throw x, log')
    end.

Definition io_await {A} (c : completion A) : io A := fun log => (c, log).

Definition io_write (env : PollEnv) (e : Effect) : io (option AuthError) :=
  fun log => (penv_write env e, log ++ [e]).

Definition io_revalidate (path : jsstring) : io unit :=
  fun log => (Normal tt, log ++ [RevalidatePath path]).

Definition perr_form : jsstring :=
  js "Please provide a question and at least two options.".
Definition perr_create_login : jsstring :=
  js "You must be logged in to create a poll.".
Definition perr_update_login : jsstring :=
  js "You must be logged in to update a poll.".

(** [export async function createPoll(formData)] *)
Definition createPoll (env : PollEnv) (formData : PollForm)
    : io ActionResult :=
  io_bind (io_await (penv_createClient env)) (fun _ =>
  let question := form_question formData in
  let options := List.filter truthy (form_options formData) in
  if negb (truthy_opt question) || (Z.of_nat (length options) <? 2) then
    io_ret (mkActionResult (Some perr_form))
  else
    io_bind (io_await (penv_getUser env)) (fun answer =>
    match answer_error answer with
    | Some userError => io_ret (mkActionResult (Some (error_message userError)))
    | None =>
        match answer_user answer with
        | None => io_ret (mkActionResult (Some perr_create_login))
        | Some user =>
            io_bind
              (io_write env
                 (InsertPoll (mkPollRow (user_id user) (default [] question)
                                options)))
              (fun error =>
               match error with
               | Some e => io_ret (mkActionResult (Some (error_message e)))
               | None =>
                   io_bind (io_revalidate (js "/polls")) (fun _ =>
                   io_ret (mkActionResult None))
               end)
        end
    end)).

(** [export async function updatePoll(pollId, formData)] *)
Definition updatePoll (env : PollEnv) (pollId : jsstring)
    (formData : PollForm) : io ActionResult :=
  io_bind (io_await (penv_createClient env)) (fun _ =>
  let question := form_question formData in
  let options := List.filter truthy (form_options formData) in
  if negb (truthy_opt question) || (Z.of_nat (length options) <? 2) then
    io_ret (mkActionResult (Some perr_form))
  else
    io_bind (io_await (penv_getUser env)) (fun answer =>
    match answer_error answer with
    | Some userError => io_ret (mkActionResult (Some (error_message userError)))
    | None =>
        match answer_user answer with
        | None => io_ret (mkActionResult (Some perr_update_login))
        | Some user =>
            io_bind
              (io_write env
                 (UpdatePoll (default [] question) options pollId
                    (user_id user)))
              (fun error =>
               match error with
               | Some e => io_ret (mkActionResult (Some (error_message e)))
               | None => io_ret (mkActionResult None)
               end)
        end
    end)).

End PollActions.
Import PollActions.

(** A sample world and form for the poll actions. *)
Module PollSamples.

Definition owner : User := mkUser (js "user-1").

Definition env_signed_in : PollEnv :=
  mkPollEnv (Normal tt) (Normal (mkGetUserAnswer (Some owner) None))
    (fun _ => Normal None).

Definition form : PollForm :=
  mkPollForm (Some (js "Tabs or spaces?")) [ js "Tabs"; []; js "Spaces" ].

End PollSamples.

(** Sample worlds for [register]. *)
Module RegistrationSamples.
Local Open Scope Z_scope.

Definition form : RegisterFormData :=
  mkRegisterData (js "Ada Lovelace") (js "ada@example.com")
    (js "Valid1Pass!").

(** A world in which the provider creates the account and asks for the
    address to be verified. *)
Definition env_verifying (now : Z) : RegisterEnv :=
  mkRegisterEnv (Normal (mkHeaders (Some (js "203.0.113.7")) None)) now
    (fun _ => js "12:15:01 AM") (Normal tt)
    (fun _ _ _ =>
       Normal (mkSignUpAnswer (mkSignUpData (Some (js "user-1")) None) None)).

End RegistrationSamples.

(* ===================================================================== *)
(** ** Histories of the rate limiter                                      *)
(* ===================================================================== *)

(** What can happen to [attemptStore]: a call of [checkRateLimit], a call
    of [clearRateLimit], a tick of the [setInterval] sweep. *)
Module History.
Local Open Scope Z_scope.

Inductive event : Type :=
| Check (identifier : jsstring) (maxAttempts windowMs now : Z)
| Clear (identifier : jsstring)
| Sweep (now : Z).

Definition step (store : attemptStore) (ev : event) : attemptStore :=
  match ev with
  | Check identifier maxAttempts windowMs now =>
      (checkRateLimit identifier maxAttempts windowMs now store).2
  | Clear identifier => clearRateLimit identifier store
  | Sweep now => cleanup now store
  end.

(** The entry a call leaves for its identifier, from the entry it found. *)
Definition next_entry (maxAttempts windowMs now : Z)
    (found : option RateLimitEntry) : RateLimitEntry :=
  match found with
  | None => mkEntry 1 now false
  | Some entry =>
      if now - lastAttempt entry >? windowMs then mkEntry 1 now false
      else mkEntry (count entry + 1) now
             (blocked entry || (count entry + 1 >? maxAttempts))
  end.

(** The store after a history, starting from the empty map the module
    creates. *)
Definition store_after (events : list event) : attemptStore :=
  fold_left step events ∅.

End History.

(* ===================================================================== *)
(** ** Facts about the matcher                                            *)
(* ===================================================================== *)

Module RegexFacts.
Import Regex.

(** Inversion of [Matches], one lemma per constructor of [re]. *)
Lemma Matches_Void_inv s : Matches Void s -> False.
Proof. inversion 1. Qed.

Lemma Matches_Eps_inv s : Matches Eps s -> s = [].
Proof. inversion 1; reflexivity. Qed.

Lemma Matches_Cls_inv p s :
  Matches (Cls p) s -> exists c, s = [c] /\ p c = true.
Proof. inversion 1; subst; eauto. Qed.

Lemma Matches_Cat_inv r1 r2 s :
  Matches (Cat r1 r2) s ->
  exists s1 s2, s = s1 ++ s2 /\ Matches r1 s1 /\ Matches r2 s2.
Proof. inversion 1; subst; eauto. Qed.

Lemma Matches_Alt_inv r1 r2 s :
  Matches (Alt r1 r2) s -> Matches r1 s \/ Matches r2 s.
Proof. inversion 1; subst; auto. Qed.

Lemma Matches_nil_nullable (r : re) : Matches r [] -> nullable r = true.
Proof.
  induction r as [ | | p | r1 IH1 r2 IH2 | r1 IH1 r2 IH2 | r1 IH1 ];
    intros H; simpl; auto.
  - destruct (Matches_Void_inv _ H).
  - apply Matches_Cls_inv in H as (c & E & _). discriminate.
  - apply Matches_Cat_inv in H as (s1 & s2 & E & H1 & H2).
    symmetry in E. apply app_eq_nil in E as [-> ->].
    rewrite IH1, IH2; auto.
  - apply Matches_Alt_inv in H as [H | H].
    + rewrite IH1; auto.
    + rewrite IH2; auto using orb_true_r.
Qed.

Lemma nullable_Matches_nil (r : re) : nullable r = true -> Matches r [].
Proof.
  induction r as [ | | p | r1 IH1 r2 IH2 | r1 IH1 r2 IH2 | r1 IH1 ];
    simpl; intros H; try discriminate.
  - constructor.
  - apply andb_true_iff in H as [H1 H2].
    change (@nil N) with (@nil N ++ []). constructor; auto.
  - apply orb_true_iff in H as [H | H];
      [ apply MAltL | apply MAltR ]; auto.
  - constructor.
Qed.

(** A non-empty word of [r*] starts with a non-empty word of [r]. *)
Lemma Matches_Star_cons (r0 : re) (w : jsstring) :
  Matches r0 w ->
  forall q a t, r0 = Star q -> w = a :: t ->
  exists t1 t2, t = t1 ++ t2 /\ Matches q (a :: t1) /\ Matches (Star q) t2.
Proof.
  induction 1 as [ | | | | | | r' s1 s2 H1 _ H2 IH2 ];
    intros q a t Er Ew; try discriminate.
  injection Er as ->.
  destruct s1 as [ | c1 s1 ]; simpl in Ew.
  - eapply IH2; eauto.
  - injection Ew as -> <-. eauto.
Qed.

Lemma Matches_cons_Cat c s1 s2 r1 r2 :
  Matches r1 (c :: s1) -> Matches r2 s2 -> Matches (Cat r1 r2) (c :: s1 ++ s2).
Proof. intros H1 H2. apply (MCat r1 r2 (c :: s1) s2); assumption. Qed.

Lemma Matches_deriv (r : re) :
  forall c s, Matches (deriv c r) s <-> Matches r (c :: s).
Proof.
  induction r as [ | | p | r1 IH1 r2 IH2 | r1 IH1 r2 IH2 | r1 IH1 ];
    intros c s; simpl.
  - split; intros H; destruct (Matches_Void_inv _ H).
  - split; intros H.
    + destruct (Matches_Void_inv _ H).
    + apply Matches_Eps_inv in H. discriminate.
  - split; intros H.
    + destruct (p c) eqn:Hp.
      * apply Matches_Eps_inv in H as ->. constructor; assumption.
      * destruct (Matches_Void_inv _ H).
    + apply Matches_Cls_inv in H as (c' & E & Hp).
      injection E as -> ->. rewrite Hp. constructor.
  - split.
    + intros H.
      assert (Hcat : forall w, Matches (Cat (deriv c r1) r2) w ->
                               Matches (Cat r1 r2) (c :: w)).
      { intros w Hw. apply Matches_Cat_inv in Hw as (s1 & s2 & -> & H1 & H2).
        apply Matches_cons_Cat; [ apply IH1 | ]; assumption. }
      destruct (nullable r1) eqn:Hn; [ | auto ].
      apply Matches_Alt_inv in H as [H | H]; [ auto | ].
      apply (MCat r1 r2 [] (c :: s));
        [ apply nullable_Matches_nil | apply IH2 ]; assumption.
    + intros H. apply Matches_Cat_inv in H as (s1 & s2 & E & H1 & H2).
      destruct s1 as [ | c1 s1 ]; simpl in E.
      * subst s2. rewrite (Matches_nil_nullable _ H1).
        apply MAltR, IH2; assumption.
      * injection E as <- ->.
        assert (Matches (Cat (deriv c r1) r2) (s1 ++ s2))
          by (constructor; [ apply IH1 | ]; assumption).
        destruct (nullable r1); [ apply MAltL | ]; assumption.
  - split; intros H; apply Matches_Alt_inv in H as [H | H];
      [ apply MAltL, IH1 | apply MAltR, IH2
      | apply MAltL, IH1 | apply MAltR, IH2 ]; assumption.
  - split.
    + intros H. apply Matches_Cat_inv in H as (s1 & s2 & -> & H1 & H2).
      apply (MStarCons r1 (c :: s1) s2); [ apply IH1 | ]; assumption.
    + intros H.
      destruct (Matches_Star_cons _ _ H r1 c s eq_refl eq_refl)
        as (s1 & s2 & -> & H1 & H2).
      constructor; [ apply IH1 | ]; assumption.
Qed.

Lemma matches_Matches (s : jsstring) :
  forall r, matches r s = true <-> Matches r s.
Proof.
  induction s as [ | c s IH ]; intros r; simpl.
  - split; [ apply nullable_Matches_nil | apply Matches_nil_nullable ].
  - rewrite IH. apply Matches_deriv.
Qed.

Lemma matches_prefix_Matches (s : jsstring) :
  forall r, matches_prefix r s = true <->
            exists s1 s2, s = s1 ++ s2 /\ Matches r s1.
Proof.
  induction s as [ | c s IH ]; intros r; simpl.
  - rewrite orb_false_r. split.
    + intros H. exists [], []. split; [ reflexivity | ].
      apply nullable_Matches_nil; assumption.
    + intros (s1 & s2 & E & H). symmetry in E.
      apply app_eq_nil in E as [-> _].
      apply Matches_nil_nullable; assumption.
  - rewrite orb_true_iff, IH. split.
    + intros [H | (s1 & s2 & -> & H)].
      * exists [], (c :: s). split; [ reflexivity | ].
        apply nullable_Matches_nil; assumption.
      * exists (c :: s1), s2. split; [ reflexivity | ].
        apply Matches_deriv; assumption.
    + intros (s1 & s2 & E & H). destruct s1 as [ | c1 s1 ].
      * left. apply Matches_nil_nullable; assumption.
      * simpl in E. injection E as <- ->. right.
        exists s1, s2. split; [ reflexivity | ].
        apply Matches_deriv; assumption.
Qed.

Lemma test_search_Matches (r : re) (s : jsstring) :
  test_search r s = true <->
  exists s0 s1 s2, s = s0 ++ s1 ++ s2 /\ Matches r s1.
Proof.
  induction s as [ | c s IH ]; simpl.
  - rewrite !orb_false_r. split.
    + intros H. exists [], [], []. split; [ reflexivity | ].
      apply nullable_Matches_nil; assumption.
    + intros (s0 & s1 & s2 & E & H). symmetry in E.
      apply app_eq_nil in E as [-> E]. apply app_eq_nil in E as [-> _].
      apply Matches_nil_nullable; assumption.
  - rewrite orb_true_iff. split.
    + intros [H | H].
      * apply orb_true_iff in H as [H | H].
        -- exists [], [], (c :: s). split; [ reflexivity | ].
           apply nullable_Matches_nil; assumption.
        -- apply matches_prefix_Matches in H as (s1 & s2 & -> & H).
           exists [], (c :: s1), s2. split; [ reflexivity | ].
           apply Matches_deriv; assumption.
      * apply IH in H as (s0 & s1 & s2 & -> & H).
        exists (c :: s0), s1, s2. split; [ reflexivity | assumption ].
    + intros (s0 & s1 & s2 & E & H). destruct s0 as [ | c0 s0 ].
      * left. change (matches_prefix r (c :: s) = true).
        apply matches_prefix_Matches. exists s1, s2. split; assumption.
      * simpl in E. injection E as <- ->. right.
        apply IH. exists s0, s1, s2. split; [ reflexivity | assumption ].
Qed.

End RegexFacts.

(* ===================================================================== *)
(** ** validatePassword                                                   *)
(* ===================================================================== *)

Module ValidationFacts.
Import Regex RegexFacts PasswordPolicy.
Local Open Scope Z_scope.

(** The lookahead [(?=.*[cls])], searched anywhere in the string, finds
    exactly the strings that hold a character of the class: line
    terminators, which [.] refuses, cannot hide one, because the search
    may start right at it. *)
Lemma test_search_lookahead_has (cls : N -> bool) (s : jsstring) :
  test_search (lookahead_has cls) s = existsb cls s.
Proof.
  apply eq_true_iff_eq.
  rewrite test_search_Matches, existsb_exists. unfold lookahead_has. split.
  - intros (s0 & s1 & s2 & -> & H).
    apply Matches_Cat_inv in H as (u & v & -> & _ & Hv).
    apply Matches_Cls_inv in Hv as (c & -> & Hc).
    exists c. split; [ | assumption ].
    apply in_or_app. right. apply in_or_app. left.
    apply in_or_app. right. left. reflexivity.
  - intros (c & Hin & Hc).
    apply in_split in Hin as (l1 & l2 & ->).
    exists l1, [c], l2. split; [ reflexivity | ].
    apply (MCat (Star Dot) (Cls cls) [] [c]); constructor; assumption.
Qed.

(** C8.  [validatePassword] checks the six rules in the order too short
    (length < 8), too long (length > 128), no lowercase letter, no
    uppercase letter, no digit, no special character, and its answer is
    the reason of the first rule violated and nothing else; it accepts
    exactly when no rule is violated.  In particular it rejects
    ["short1!"] (too short) and ["alllowercase1!"] (no uppercase letter)
    and accepts ["Valid1Pass!"]. *)
Theorem validatePassword_first_violated_rule :
  (forall s : jsstring,
      validatePassword s =
      verdict (List.find (violates s)
                 [ TooShort; TooLong; MissingLowercase; MissingUppercase;
                   MissingDigit; MissingSpecial ]))
  /\ validatePassword (js "short1!") = mkValidation false (Some msg_too_short)
  /\ validatePassword (js "alllowercase1!")
       = mkValidation false (Some msg_uppercase)
  /\ validatePassword (js "Valid1Pass!") = mkValidation true None.
Proof.
  split; [ | repeat split; vm_compute; reflexivity ].
  intros s. unfold validatePassword.
  rewrite !test_search_lookahead_has. simpl.
  rewrite Z.gtb_ltb.
  repeat match goal with
         | |- context [ if ?b then _ else _ ] => destruct b
         end; reflexivity.
Qed.

End ValidationFacts.

(* ===================================================================== *)
(** ** checkRateLimit                                                     *)
(* ===================================================================== *)

Module RateLimitFacts.
Import Timing.
Local Open Scope Z_scope.

Implicit Types (id : jsstring) (maxAttempts windowMs now start prev sweep : Z).
Implicit Types (store : attemptStore) (entry : RateLimitEntry).
Implicit Types (times : list Z).

(** *** The three branches *)

Lemma checkRateLimit_first id maxAttempts windowMs now (store : attemptStore) :
  store !! id = None ->
  checkRateLimit id maxAttempts windowMs now store =
  (mkResult true (maxAttempts - 1) (now + windowMs),
   <[id := mkEntry 1 now false]> store).
Proof. intros H. unfold checkRateLimit. rewrite H. reflexivity. Qed.

Lemma checkRateLimit_expired id maxAttempts windowMs now
    (store : attemptStore) entry :
  store !! id = Some entry ->
  now - lastAttempt entry > windowMs ->
  checkRateLimit id maxAttempts windowMs now store =
  (mkResult true (maxAttempts - 1) (now + windowMs),
   <[id := mkEntry 1 now false]> store).
Proof.
  intros H Hexp. unfold checkRateLimit. rewrite H.
  destruct (Z.gtb_spec (now - lastAttempt entry) windowMs);
    [ reflexivity | lia ].
Qed.

Lemma checkRateLimit_counted id maxAttempts windowMs now
    (store : attemptStore) entry :
  store !! id = Some entry ->
  now - lastAttempt entry <= windowMs ->
  checkRateLimit id maxAttempts windowMs now store =
  (decision maxAttempts windowMs now (count entry + 1),
   <[id := mkEntry (count entry + 1) now
             (blocked entry || (count entry + 1 >? maxAttempts))]> store).
Proof.
  intros H Hin. unfold checkRateLimit, decision. rewrite H.
  destruct (Z.gtb_spec (now - lastAttempt entry) windowMs); [ lia | ].
  simpl. destruct (count entry + 1 >? maxAttempts).
  - rewrite orb_true_r. reflexivity.
  - rewrite orb_false_r. reflexivity.
Qed.

Lemma checkRateLimit_opens id maxAttempts windowMs now
    (store : attemptStore) :
  opens_window id windowMs now store ->
  checkRateLimit id maxAttempts windowMs now store =
  (mkResult true (maxAttempts - 1) (now + windowMs),
   <[id := mkEntry 1 now false]> store).
Proof.
  unfold opens_window. destruct (store !! id) as [entry | ] eqn:H; intros Ho.
  - eapply checkRateLimit_expired; eassumption.
  - apply checkRateLimit_first; assumption.
Qed.

(** *** What a call leaves in the store *)

(** Every call stamps the entry of its identifier with its own time. *)
Lemma checkRateLimit_stamps id maxAttempts windowMs now
    (store : attemptStore) :
  lastAttempt <$> (checkRateLimit id maxAttempts windowMs now store).2 !! id
  = Some now.
Proof.
  unfold checkRateLimit.
  destruct (store !! id) as [entry | ];
    [ destruct (now - lastAttempt entry >? windowMs);
      [ | simpl; destruct (count entry + 1 >? maxAttempts) ] | ];
    simpl; rewrite lookup_insert_eq; reflexivity.
Qed.

(** A call touches the entry of its own identifier only. *)
Lemma checkRateLimit_frame id id' maxAttempts windowMs now
    (store : attemptStore) :
  id <> id' ->
  (checkRateLimit id maxAttempts windowMs now store).2 !! id' = store !! id'.
Proof.
  intros Hne. unfold checkRateLimit.
  destruct (store !! id) as [entry | ];
    [ destruct (now - lastAttempt entry >? windowMs);
      [ | simpl; destruct (count entry + 1 >? maxAttempts) ] | ];
    simpl; rewrite lookup_insert_ne by assumption; reflexivity.
Qed.

(** The decision depends on the store through the entry of the identifier
    only. *)
Lemma checkRateLimit_local id maxAttempts windowMs now
    (store store' : attemptStore) :
  store !! id = store' !! id ->
  (checkRateLimit id maxAttempts windowMs now store).1 =
  (checkRateLimit id maxAttempts windowMs now store').1.
Proof.
  intros H. unfold checkRateLimit. rewrite H.
  destruct (store' !! id) as [entry | ]; [ | reflexivity ].
  destruct (now - lastAttempt entry >? windowMs); [ reflexivity | ].
  simpl. destruct (count entry + 1 >? maxAttempts); reflexivity.
Qed.

(** *** The periodic sweep *)

Lemma cleanup_lookup sweep store id :
  cleanup sweep store !! id =
  match store !! id with
  | Some entry =>
      if decide (sweep - lastAttempt entry > 60 * 60 * 1000) then None
      else Some entry
  | None => None
  end.
Proof.
  unfold cleanup. destruct (store !! id) as [entry | ] eqn:H.
  - destruct (decide (sweep - lastAttempt entry > 60 * 60 * 1000)) as [Hold | Hnew].
    + apply map_lookup_filter_None. right. intros entry' H' Hkeep.
      simpl in Hkeep. congruence.
    + apply map_lookup_filter_Some. split; [ assumption | exact Hnew ].
  - apply map_lookup_filter_None. left. assumption.
Qed.

(** For a window of at most one hour the sweep is not observable: an entry
    it deletes has expired for every later call, which would have reset it
    anyway.  The decision of the next call and the entry it leaves are the
    same with and without the sweep. *)
Lemma checkRateLimit_after_cleanup id maxAttempts windowMs sweep now store :
  windowMs <= 60 * 60 * 1000 ->
  sweep <= now ->
  (checkRateLimit id maxAttempts windowMs now (cleanup sweep store)).1
    = (checkRateLimit id maxAttempts windowMs now store).1
  /\ (checkRateLimit id maxAttempts windowMs now (cleanup sweep store)).2 !! id
     = (checkRateLimit id maxAttempts windowMs now store).2 !! id.
Proof.
  intros Hw Hs.
  pose proof (cleanup_lookup sweep store id) as Hl.
  destruct (store !! id) as [entry | ] eqn:H.
  - destruct (decide (sweep - lastAttempt entry > 60 * 60 * 1000))
      as [Hold | Hnew].
    + rewrite (checkRateLimit_first _ _ _ _ _ Hl).
      rewrite (checkRateLimit_expired _ _ _ _ _ _ H) by lia.
      simpl. by rewrite !lookup_insert_eq.
    + unfold checkRateLimit. rewrite Hl, H.
      destruct (now - lastAttempt entry >? windowMs);
        [ | simpl; destruct (count entry + 1 >? maxAttempts) ];
        simpl; by rewrite !lookup_insert_eq.
  - rewrite (checkRateLimit_first _ _ _ _ _ Hl).
    rewrite (checkRateLimit_first _ _ _ _ _ H).
    simpl. by rewrite !lookup_insert_eq.
Qed.

(** *** Paced runs *)

Lemma in_window_paced windowMs start :
  forall times prev,
    in_window windowMs start prev ->
    Forall (in_window windowMs start) times ->
    paced windowMs prev times.
Proof.
  induction times as [ | t times IH ]; intros prev Hprev Hall; simpl.
  - exact I.
  - inversion Hall as [ | ? ? Ht Hrest ]; subst.
    split; [ unfold in_window in *; lia | apply IH; assumption ].
Qed.

Lemma last_cons_default (l : list Z) :
  forall a d d', List.last (a :: l) d = List.last (a :: l) d'.
Proof.
  induction l as [ | b l IH ]; intros a d d'; [ reflexivity | ].
  change (List.last (b :: l) d = List.last (b :: l) d'). apply IH.
Qed.

(** A paced run counts every call: the decisions are those of the
    successive counts, and the entry ends with the count raised by the
    number of calls and the time of the last call. *)
Lemma checkRateLimit_seq_paced id maxAttempts windowMs :
  forall times (store : attemptStore) entry,
    store !! id = Some entry ->
    paced windowMs (lastAttempt entry) times ->
    (checkRateLimit_seq id maxAttempts windowMs times store).1
      = decisions maxAttempts windowMs (count entry) times
    /\ exists entry',
        (checkRateLimit_seq id maxAttempts windowMs times store).2 !! id
          = Some entry'
        /\ count entry' = count entry + Z.of_nat (length times)
        /\ lastAttempt entry' = List.last times (lastAttempt entry).
Proof.
  induction times as [ | t times IH ]; intros store entry H Hp; simpl.
  - split; [ reflexivity | ]. exists entry. repeat split; [ assumption | lia ].
  - destruct Hp as [Ht Hp].
    rewrite (checkRateLimit_counted _ _ _ _ _ _ H Ht).
    set (entry1 := mkEntry _ _ _). set (store1 := <[id := entry1]> store).
    assert (H1 : store1 !! id = Some entry1) by apply lookup_insert_eq.
    destruct (IH store1 entry1 H1 Hp) as (Hd & entry' & Hl & Hc & Hla).
    destruct (checkRateLimit_seq id maxAttempts windowMs times store1)
      as [rs store2].
    simpl in *. split; [ by rewrite Hd | ].
    exists entry'. repeat split; [ assumption | lia | ].
    rewrite Hla. destruct times; [ reflexivity | apply last_cons_default ].
Qed.

Lemma decisions_app maxAttempts windowMs :
  forall times n t,
    decisions maxAttempts windowMs n (times ++ [t]) =
    decisions maxAttempts windowMs n times
      ++ [decision maxAttempts windowMs t (n + Z.of_nat (length times) + 1)].
Proof.
  induction times as [ | t0 times IH ]; intros n t;
    cbn [decisions app length].
  - by rewrite Z.add_0_r.
  - rewrite IH, Nat2Z.inj_succ.
    replace (n + 1 + Z.of_nat (length times) + 1)
      with (n + Z.succ (Z.of_nat (length times)) + 1) by lia.
    reflexivity.
Qed.

Lemma decisions_length maxAttempts windowMs :
  forall times n, length (decisions maxAttempts windowMs n times) = length times.
Proof. induction times; intros n; simpl; auto. Qed.

(** While the count stays within the limit every decision is an
    acceptance. *)
Lemma decisions_allowed maxAttempts windowMs :
  forall times n,
    n + Z.of_nat (length times) <= maxAttempts ->
    Forall (fun r => allowed r = true) (decisions maxAttempts windowMs n times).
Proof.
  induction times as [ | t times IH ]; intros n Hn; simpl in *.
  - constructor.
  - constructor; [ | apply IH; lia ].
    unfold decision. destruct (Z.gtb_spec (n + 1) maxAttempts);
      [ lia | reflexivity ].
Qed.

(** Once the count is at the limit every decision is a refusal, with
    nothing remaining and a reset time one window after the call. *)
Lemma decisions_refused maxAttempts windowMs :
  forall times n,
    maxAttempts <= n ->
    decisions maxAttempts windowMs n times
      = map (fun t => mkResult false 0 (t + windowMs)) times.
Proof.
  induction times as [ | t times IH ]; intros n Hn; simpl.
  - reflexivity.
  - rewrite IH by lia. unfold decision.
    destruct (Z.gtb_spec (n + 1) maxAttempts); [ reflexivity | lia ].
Qed.

Lemma map_allowed_true (rs : list RateLimitResult) :
  Forall (fun r => allowed r = true) rs ->
  map allowed rs = replicate (length rs) true.
Proof.
  induction 1 as [ | r rs Hr _ IH ]; simpl; [ reflexivity | ].
  by rewrite Hr, IH.
Qed.

(** *** The claims about [checkRateLimit] *)

(** C1.  Take any identifier and any limit [maxAttempts >= 1], and let a
    call at time [start] open a window for the identifier (no entry, or an
    expired one).  If that call and the calls after it, [maxAttempts] in
    all, are followed by one more call, every call being made within
    [windowMs] of [start], then the first [maxAttempts] calls are allowed
    and the next one is refused.  The limit is the number of calls of
    [start :: times], so it is at least 1. *)
Theorem checkRateLimit_budget id maxAttempts windowMs start times now store :
  opens_window id windowMs start store ->
  Z.of_nat (length (start :: times)) = maxAttempts ->
  Forall (in_window windowMs start) (times ++ [now]) ->
  map allowed
    (checkRateLimit_seq id maxAttempts windowMs
       (start :: times ++ [now]) store).1
  = replicate (length (start :: times)) true ++ [false].
Proof.
  intros Hopen Hlen Hwin.
  assert (Hstart : in_window windowMs start start).
  { apply Forall_app in Hwin as [_ Hnow].
    inversion Hnow; subst. unfold in_window in *. lia. }
  cbn [checkRateLimit_seq].
  rewrite (checkRateLimit_opens _ _ _ _ _ Hopen).
  set (entry1 := mkEntry 1 start false).
  set (store1 := <[id := entry1]> store).
  assert (H1 : store1 !! id = Some entry1) by apply lookup_insert_eq.
  pose proof (in_window_paced _ _ _ _ Hstart Hwin) as Hp.
  destruct (checkRateLimit_seq_paced id maxAttempts windowMs _ _ _ H1 Hp)
    as [Hd _].
  destruct (checkRateLimit_seq id maxAttempts windowMs (times ++ [now]) store1)
    as [rs store2].
  simpl in Hd. subst rs. cbn [fst map length replicate].
  rewrite decisions_app, map_app. cbn [length] in Hlen.
  rewrite Nat2Z.inj_succ in Hlen.
  rewrite map_allowed_true by (apply decisions_allowed; lia).
  rewrite decisions_length. cbn [map allowed app]. unfold decision.
  destruct (Z.gtb_spec (1 + Z.of_nat (length times) + 1) maxAttempts);
    [ reflexivity | lia ].
Qed.

Lemma checkRateLimit_budget_witness :
  map allowed
    (checkRateLimit_seq (js "login:203.0.113.7") 5 900000
       (1000 :: [2000; 3000; 4000; 5000] ++ [6000]) ∅).1
  = [true; true; true; true; true; false].
Proof.
  apply (checkRateLimit_budget (js "login:203.0.113.7") 5 900000 1000
           [2000; 3000; 4000; 5000] 6000 ∅).
  - exact I.
  - reflexivity.
  - repeat constructor; unfold in_window; lia.
Defined.

(** C2, as the code has it.  The expiry check compares the current time
    with the stored [lastAttempt], and every call sets [lastAttempt] to
    its own time.  Once more than [windowMs] has passed since the last
    call for the identifier, the next call treats the identifier as
    fresh: it is allowed, the count restarts at 1, and decision and store
    are those the call gives after [clearRateLimit]. *)
Theorem checkRateLimit_expiry_from_last_attempt
    id maxAttempts windowMs now store entry :
  store !! id = Some entry ->
  now - lastAttempt entry > windowMs ->
  checkRateLimit id maxAttempts windowMs now store
    = (mkResult true (maxAttempts - 1) (now + windowMs),
       <[id := mkEntry 1 now false]> store)
  /\ checkRateLimit id maxAttempts windowMs now store
     = checkRateLimit id maxAttempts windowMs now (clearRateLimit id store)
  /\ forall t,
       lastAttempt <$>
         (checkRateLimit id maxAttempts windowMs t store).2 !! id = Some t.
Proof.
  intros H Hexp.
  rewrite (checkRateLimit_expired _ _ _ _ _ _ H Hexp).
  split; [ reflexivity | split ].
  - unfold clearRateLimit.
    rewrite checkRateLimit_first by apply lookup_delete_eq.
    by rewrite insert_delete_eq.
  - intros t. apply checkRateLimit_stamps.
Qed.

Lemma checkRateLimit_expiry_from_last_attempt_witness :
  let store : attemptStore := {[ js "a" := mkEntry 3 1000 false ]} in
  checkRateLimit (js "a") 5 900000 901001 store
  = (mkResult true 4 1801001, <[js "a" := mkEntry 1 901001 false]> store).
Proof.
  intros store.
  apply (checkRateLimit_expiry_from_last_attempt
           (js "a") 5 900000 901001 store (mkEntry 3 1000 false)).
  - apply lookup_singleton_eq.
  - simpl. lia.
Defined.

(** C2, as stated, fails.  With a limit of 5 per 900000 ms, calls at 0,
    600000 and 1000000: the second call replaces the stored timestamp by
    its own time, so the stored time is not that of the first attempt of
    the window; and the third call, made more than 900000 ms after the
    first attempt, is not treated as fresh: it is counted as the third
    attempt and leaves 2 attempts, where a fresh identifier has 4. *)
Lemma checkRateLimit_expiry_not_from_window_start :
  let id := js "a" in
  let store1 := (checkRateLimit id 5 900000 0 ∅).2 in
  let store2 := (checkRateLimit id 5 900000 600000 store1).2 in
  let '(r3, store3) := checkRateLimit id 5 900000 1000000 store2 in
  lastAttempt <$> store1 !! id = Some 0
  /\ lastAttempt <$> store2 !! id = Some 600000
  /\ 1000000 - 0 > 900000
  /\ r3 = mkResult true 2 1900000
  /\ store3 !! id = Some (mkEntry 3 1000000 false)
  /\ r3 <> (checkRateLimit id 5 900000 1000000 ∅).1.
Proof. vm_compute. repeat split; try reflexivity; discriminate. Qed.

(** C3, as the code has it.  For a call inside the window of an existing
    entry the count is incremented and the timestamp set to the time of
    the call.  If the incremented count exceeds [maxAttempts] the entry
    is marked blocked and the call returns [allowed = false],
    [remainingAttempts = 0] and [resetTime = now + windowMs], the time of
    this call plus the window.  Otherwise it returns [allowed = true]
    with [remainingAttempts = maxAttempts - count] for the incremented
    count, and the same [resetTime]. *)
Theorem checkRateLimit_inside_window
    id maxAttempts windowMs now store entry :
  store !! id = Some entry ->
  now - lastAttempt entry <= windowMs ->
  (count entry + 1 > maxAttempts ->
   checkRateLimit id maxAttempts windowMs now store
     = (mkResult false 0 (now + windowMs),
        <[id := mkEntry (count entry + 1) now true]> store))
  /\ (count entry + 1 <= maxAttempts ->
      checkRateLimit id maxAttempts windowMs now store
        = (mkResult true (maxAttempts - (count entry + 1)) (now + windowMs),
           <[id := mkEntry (count entry + 1) now (blocked entry)]> store)).
Proof.
  intros H Hin. rewrite (checkRateLimit_counted _ _ _ _ _ _ H Hin).
  unfold decision.
  destruct (Z.gtb_spec (count entry + 1) maxAttempts); split; intros Hc;
    try lia.
  - by rewrite orb_true_r.
  - by rewrite orb_false_r.
Qed.

Lemma checkRateLimit_inside_window_witness :
  let store : attemptStore := {[ js "a" := mkEntry 5 1000 false ]} in
  checkRateLimit (js "a") 5 900000 2000 store
  = (mkResult false 0 902000, <[js "a" := mkEntry 6 2000 true]> store).
Proof.
  intros store.
  apply (checkRateLimit_inside_window
           (js "a") 5 900000 2000 store (mkEntry 5 1000 false)).
  - apply lookup_singleton_eq.
  - simpl. lia.
  - simpl. lia.
Defined.

(** C3, as stated, fails on the reset time.  With a limit of 1 per
    900000 ms, the first attempt at time 0 opens the window; the attempt
    at time 1000 exceeds the limit and is refused with [resetTime =
    901000], the time of the refused call plus the window, and not
    [0 + 900000], the start of the window plus the window. *)
Lemma checkRateLimit_resetTime_not_from_window_start :
  let id := js "a" in
  let '(r1, store1) := checkRateLimit id 1 900000 0 ∅ in
  let '(r2, store2) := checkRateLimit id 1 900000 1000 store1 in
  r1 = mkResult true 0 900000
  /\ allowed r2 = false
  /\ remainingAttempts r2 = 0
  /\ resetTime r2 = 901000
  /\ resetTime r2 <> 0 + 900000
  /\ store2 !! id = Some (mkEntry 2 1000 true).
Proof. vm_compute. repeat split; try reflexivity; discriminate. Qed.

(** C9, as the code has it.  For every limit [maxAttempts >= 1], every
    identifier, store, window and time, the decision has
    [remainingAttempts >= 0]. *)
Theorem checkRateLimit_remaining_nonneg id maxAttempts windowMs now store :
  1 <= maxAttempts ->
  0 <= remainingAttempts (checkRateLimit id maxAttempts windowMs now store).1.
Proof.
  intros Hmax. unfold checkRateLimit.
  destruct (store !! id) as [entry | ]; [ | simpl; lia ].
  destruct (now - lastAttempt entry >? windowMs); [ simpl; lia | ].
  cbn [count]. destruct (Z.gtb_spec (count entry + 1) maxAttempts);
    simpl; lia.
Qed.

Lemma checkRateLimit_remaining_nonneg_witness :
  0 <= remainingAttempts (checkRateLimit (js "a") 1 900000 0 ∅).1.
Proof.
  apply (checkRateLimit_remaining_nonneg (js "a") 1 900000 0 ∅). lia.
Defined.

(** C9, as stated, fails for a limit below 1: with [maxAttempts = 0] the
    first call for an unseen identifier is allowed and reports
    [remainingAttempts = -1]. *)
Lemma checkRateLimit_remaining_negative :
  (checkRateLimit (js "a") 0 900000 0 ∅).1 = mkResult true (-1) 900000
  /\ ~ 0 <= remainingAttempts (checkRateLimit (js "a") 0 900000 0 ∅).1.
Proof. split; [ reflexivity | vm_compute; intros H; apply H; reflexivity ]. Qed.

(** C10.  Once the stored count of an identifier exceeds [maxAttempts],
    a call made within [windowMs] of the call before it is refused,
    sets the timestamp of the entry to its own time and keeps the entry
    blocked; hence in a run of calls each made within [windowMs] of the
    one before, every call is refused, each with a reset time one full
    window after itself, the entry ends stamped with the time of the last
    call, and the count still exceeds the limit. *)
Theorem checkRateLimit_blocked_stays_blocked
    id maxAttempts windowMs times store entry :
  store !! id = Some entry ->
  count entry > maxAttempts ->
  paced windowMs (lastAttempt entry) times ->
  (forall now,
      now - lastAttempt entry <= windowMs ->
      checkRateLimit id maxAttempts windowMs now store
      = (mkResult false 0 (now + windowMs),
         <[id := mkEntry (count entry + 1) now true]> store))
  /\ (checkRateLimit_seq id maxAttempts windowMs times store).1
     = map (fun t => mkResult false 0 (t + windowMs)) times
  /\ exists entry',
      (checkRateLimit_seq id maxAttempts windowMs times store).2 !! id
        = Some entry'
      /\ lastAttempt entry' = List.last times (lastAttempt entry)
      /\ count entry' > maxAttempts.
Proof.
  intros H Hc Hp. split; [ | split ].
  - intros now Hin. rewrite (checkRateLimit_counted _ _ _ _ _ _ H Hin).
    unfold decision.
    destruct (Z.gtb_spec (count entry + 1) maxAttempts); [ | lia ].
    by rewrite orb_true_r.
  - destruct (checkRateLimit_seq_paced id maxAttempts windowMs _ _ _ H Hp)
      as [Hd _].
    rewrite Hd. apply decisions_refused. lia.
  - destruct (checkRateLimit_seq_paced id maxAttempts windowMs _ _ _ H Hp)
      as (_ & entry' & Hl & Hcount & Hlast).
    exists entry'. repeat split; [ assumption | assumption | lia ].
Qed.

Lemma checkRateLimit_blocked_stays_blocked_witness :
  let store : attemptStore := {[ js "a" := mkEntry 6 1000 true ]} in
  (checkRateLimit_seq (js "a") 5 900000 [900000; 1800000; 2700000] store).1
  = [ mkResult false 0 1800000; mkResult false 0 2700000;
      mkResult false 0 3600000 ].
Proof.
  intros store.
  apply (checkRateLimit_blocked_stays_blocked
           (js "a") 5 900000 [900000; 1800000; 2700000] store
           (mkEntry 6 1000 true)).
  - apply lookup_singleton_eq.
  - simpl. lia.
  - simpl. lia.
Defined.

End RateLimitFacts.

(* ===================================================================== *)
(** ** login                                                              *)
(* ===================================================================== *)

Module LoginFacts.
Import Timing RateLimitFacts.
Local Open Scope Z_scope.

Implicit Types (env : LoginEnv) (data : LoginFormData).
Implicit Types (store : attemptStore) (h : RequestHeaders).

(** The message for a provider error is one of four constants. *)
Lemma login_error_message_closed (e : AuthError) :
  In (login_error_message e)
     [ err_invalid_credentials; err_email_not_verified;
       err_provider_rate_limited; err_authentication_failed ].
Proof.
  unfold login_error_message.
  repeat match goal with
         | |- context [ if ?b then _ else _ ] => destruct b
         end; simpl; auto.
Qed.

(** It depends on the provider text through three substring tests only. *)
Lemma login_error_message_tests (e1 e2 : AuthError) :
  (forall needle,
      In needle [ js "Invalid login credentials"; js "Email not confirmed";
                  js "Too many requests" ] ->
      includes needle (error_message e1) = includes needle (error_message e2)) ->
  login_error_message e1 = login_error_message e2.
Proof.
  intros H. unfold login_error_message.
  rewrite !(H _) by (simpl; auto). reflexivity.
Qed.

(** [login] always completes normally: whatever is thrown inside the
    [try] block is converted by the [catch] clause. *)
Lemma login_completes env data store :
  exists r, (login env data store).1 = Normal r.
Proof.
  unfold login, try_catch, ret.
  destruct (login_try env data store) as [[r | e] store']; simpl; eauto.
Qed.

Lemma truthy_length (s : jsstring) :
  truthy s = true -> (Z.of_nat (length s) <? 1) = false.
Proof.
  destruct s; [ discriminate | intros _ ].
  apply Z.ltb_ge. simpl length. lia.
Qed.

(** The store after [login] is the store after its [checkRateLimit],
    whenever the request headers could be read. *)
Lemma login_store env data store h :
  env_headers env = Normal h ->
  (login env data store).2 =
  (checkRateLimit (login_key h) 5 900000 (env_now env) store).2.
Proof.
  intros Hh.
  unfold login, try_catch, login_try, bind, await, on_store, ret, login_key.
  rewrite Hh. change (15 * 60 * 1000) with 900000.
  destruct (checkRateLimit _ 5 900000 (env_now env) store) as [rl store1].
  repeat match goal with
         | |- context [ if ?b then _ else _ ] => destruct b
         | |- context [ match ?c with Normal _ => _ | Throw _ => _ end ] =>
             destruct c
         | |- context [ match ?o with Some _ => _ | None => _ end ] =>
             destruct o
         end; reflexivity.
Qed.

(** When the request passes the rate limit and the input checks, the
    answer of [login] is decided by the provider call. *)
Lemma login_reaches_provider env data store h :
  env_headers env = Normal h ->
  allowed (checkRateLimit (login_key h) 5 900000 (env_now env) store).1
    = true ->
  truthy (email data) = true ->
  truthy (password data) = true ->
  validateEmail (sanitizeInput (email data)) = true ->
  env_createClient env = Normal tt ->
  (login env data store).1 =
  match env_signInWithPassword env (sanitizeInput (email data))
          (password data) with
  | Normal (Some e) => Normal (mkActionResult (Some (login_error_message e)))
  | Normal None => Normal (mkActionResult None)
  | Throw _ => Normal (mkActionResult (Some err_unexpected))
  end.
Proof.
  intros Hh Hallowed Hemail Hpassword Hvalid Hclient.
  unfold login, try_catch, login_try, bind, await, on_store, ret.
  unfold login_key in Hallowed.
  rewrite Hh. change (15 * 60 * 1000) with 900000.
  destruct (checkRateLimit _ 5 900000 (env_now env) store) as [rl store1].
  simpl in Hallowed. rewrite Hallowed, Hemail, Hpassword, Hvalid.
  rewrite (truthy_length _ Hpassword), Hclient. simpl.
  destruct (env_signInWithPassword env _ _) as [[e | ] | x]; reflexivity.
Qed.

(** A thrown exception of the provider call is converted as well, to the
    fixed message of the [catch] clause. *)
Lemma login_provider_throws env data store h x :
  env_headers env = Normal h ->
  allowed (checkRateLimit (login_key h) 5 900000 (env_now env) store).1
    = true ->
  truthy (email data) = true ->
  truthy (password data) = true ->
  validateEmail (sanitizeInput (email data)) = true ->
  env_createClient env = Normal tt ->
  env_signInWithPassword env (sanitizeInput (email data)) (password data)
    = Throw x ->
  (login env data store).1 = Normal (mkActionResult (Some err_unexpected)).
Proof.
  intros Hh Hallowed Hemail Hpassword Hvalid Hclient Hsign.
  rewrite (login_reaches_provider _ _ _ _ Hh Hallowed Hemail Hpassword
             Hvalid Hclient), Hsign.
  reflexivity.
Qed.

(** *** The claims about [login] *)

(** C7.  Whenever the provider call of [login] is reached and the
    provider answers with an error, [login] returns one of four fixed
    messages: invalid credentials, email not verified, provider rate
    limit, or the generic "authentication failed".  The message is chosen
    by substring tests on the provider text and is never that text
    itself.  And [login] always completes normally: no exception leaves
    it. *)
Theorem login_provider_failure env data store h e :
  env_headers env = Normal h ->
  allowed (checkRateLimit (login_key h) 5 900000 (env_now env) store).1
    = true ->
  truthy (email data) = true ->
  truthy (password data) = true ->
  validateEmail (sanitizeInput (email data)) = true ->
  env_createClient env = Normal tt ->
  env_signInWithPassword env (sanitizeInput (email data)) (password data)
    = Normal (Some e) ->
  (login env data store).1
    = Normal (mkActionResult (Some (login_error_message e)))
  /\ In (login_error_message e)
        [ err_invalid_credentials; err_email_not_verified;
          err_provider_rate_limited; err_authentication_failed ]
  /\ (forall env' data' store',
         exists r, (login env' data' store').1 = Normal r).
Proof.
  intros Hh Hallowed Hemail Hpassword Hvalid Hclient Hsign.
  split; [ | split ].
  - rewrite (login_reaches_provider _ _ _ _ Hh Hallowed Hemail Hpassword
               Hvalid Hclient), Hsign.
    reflexivity.
  - apply login_error_message_closed.
  - intros env' data' store'. apply login_completes.
Qed.

Lemma login_provider_failure_witness :
  (login
     (Samples.env_rejecting 1000
        (js "AuthApiError: Email not confirmed for user@example.com"))
     Samples.credentials ∅).1
  = Normal (mkActionResult (Some err_email_not_verified)).
Proof.
  refine (proj1 (login_provider_failure
                   (Samples.env_rejecting 1000
                      (js "AuthApiError: Email not confirmed for user@example.com"))
                   Samples.credentials ∅ Samples.client_headers
                   (mkAuthError
                      (js "AuthApiError: Email not confirmed for user@example.com"))
                   _ _ _ _ _ _ _)); reflexivity.
Defined.

(** C4, as the code has it.  After a [login] that succeeds the entry of
    the caller's identifier is not removed: the store is the one its
    [checkRateLimit] left, the entry is still there, stamped with the time
    of the call, and a [checkRateLimit] for the caller made on this store
    within the window counts on top of it instead of answering as for a
    fresh identifier.  [login] does not call [clearRateLimit]; applied to
    this store, [clearRateLimit] does make the next [checkRateLimit]
    answer as for a fresh identifier. *)
Theorem login_success_keeps_rate_limit_entry env data store :
  (login env data store).1 = Normal (mkActionResult None) ->
  exists h entry,
    env_headers env = Normal h
    /\ (login env data store).2
       = (checkRateLimit (login_key h) 5 900000 (env_now env) store).2
    /\ (login env data store).2 !! login_key h = Some entry
    /\ lastAttempt entry = env_now env
    /\ (forall now,
           now - env_now env <= 900000 ->
           (checkRateLimit (login_key h) 5 900000 now
              (login env data store).2).1
           = decision 5 900000 now (count entry + 1))
    /\ (forall now,
           checkRateLimit (login_key h) 5 900000 now
             (clearRateLimit (login_key h) (login env data store).2)
           = (mkResult true 4 (now + 900000),
              <[login_key h := mkEntry 1 now false]>
                (login env data store).2)).
Proof.
  intros Hok.
  destruct (env_headers env) as [h | x] eqn:Hh.
  2:{ unfold login, try_catch, login_try, bind, await in Hok.
      rewrite Hh in Hok. discriminate. }
  pose proof (checkRateLimit_stamps (login_key h) 5 900000 (env_now env)
                store) as Hstamp.
  rewrite <- (login_store _ data _ _ Hh) in Hstamp.
  destruct ((login env data store).2 !! login_key h) as [entry | ] eqn:Hl;
    [ | discriminate ].
  simpl in Hstamp.
  assert (Hlast : lastAttempt entry = env_now env) by congruence.
  exists h, entry.
  split; [ reflexivity | ].
  split; [ apply login_store; assumption | ].
  split; [ assumption | ].
  split; [ assumption | ].
  split.
  - intros now Hin.
    rewrite (checkRateLimit_counted _ 5 900000 now _ _ Hl) by lia.
    reflexivity.
  - intros now. unfold clearRateLimit.
    rewrite checkRateLimit_first by apply lookup_delete_eq.
    by rewrite insert_delete_eq.
Qed.

Lemma login_success_keeps_rate_limit_entry_witness :
  exists h entry,
    env_headers (Samples.env_accepting 1000) = Normal h
    /\ (login (Samples.env_accepting 1000) Samples.credentials ∅).2
         !! login_key h = Some entry
    /\ lastAttempt entry = 1000.
Proof.
  assert (Hok : (login (Samples.env_accepting 1000) Samples.credentials ∅).1
                = Normal (mkActionResult None))
    by (vm_compute; reflexivity).
  destruct (login_success_keeps_rate_limit_entry
              (Samples.env_accepting 1000) Samples.credentials ∅ Hok)
    as (h & entry & Hh & _ & Hl & Hstamp & _).
  exists h, entry. repeat split; assumption.
Defined.

(** C4, as stated, fails.  A caller at 203.0.113.7 logs in with valid
    credentials and the provider accepts them: [login] returns
    [error = null], and the store still holds the entry of
    ["login:203.0.113.7"] with count 1, so the caller's next
    [checkRateLimit] leaves 3 attempts where a fresh identifier has 4. *)
Lemma login_success_does_not_clear :
  let id := js "login:203.0.113.7" in
  let '(r, store1) :=
    login (Samples.env_accepting 1000) Samples.credentials ∅ in
  r = Normal (mkActionResult None)
  /\ store1 !! id = Some (mkEntry 1 1000 false)
  /\ store1 !! id <> None
  /\ (checkRateLimit id 5 900000 2000 store1).1 = mkResult true 3 902000
  /\ (checkRateLimit id 5 900000 2000 ∅).1 = mkResult true 4 902000.
Proof. vm_compute. repeat split; try reflexivity; discriminate. Qed.

(** Five logins that all succeed use up the budget: the sixth attempt of
    the same caller within the window is refused by the rate limiter
    before the provider is asked. *)
Lemma login_sixth_attempt_refused_after_five_successes :
  (login_seq
     (map (fun t => (Samples.env_accepting t, Samples.credentials))
        [1000; 2000; 3000; 4000; 5000; 6000]) ∅).1
  = replicate 5 (Normal (mkActionResult None))
    ++ [ Normal (mkActionResult
                   (Some (js "Too many login attempts. Please try again after 12:15:01 AM"))) ].
Proof. vm_compute. reflexivity. Qed.

End LoginFacts.

(* ===================================================================== *)
(** ** updateSession                                                      *)
(* ===================================================================== *)

Module MiddlewareFacts.

Implicit Types (request : NextRequest) (auth : GetUserOutcome).
Implicit Types (r : NextResponse) (ps : list (jsstring * jsstring)).

Lemma jsstring_eqb_refl (a : jsstring) : jsstring_eqb a a = true.
Proof. unfold jsstring_eqb. by apply bool_decide_eq_true. Qed.

(** Reading back the parameter that was just set. *)
Lemma searchParams_get_set (name value : jsstring) ps :
  searchParams_get name (searchParams_set name value ps) = Some value.
Proof.
  induction ps as [ | [k v] ps IH ]; simpl.
  - by rewrite jsstring_eqb_refl.
  - destruct (jsstring_eqb k name) eqn:E; simpl; rewrite E; auto.
Qed.

Lemma jsstring_eqb_neq (a b : jsstring) : a <> b -> jsstring_eqb a b = false.
Proof. intros H. unfold jsstring_eqb. by apply bool_decide_eq_false. Qed.

Lemma searchParams_get_delete_other (name name' : jsstring) ps :
  name <> name' ->
  searchParams_get name' (searchParams_delete name ps)
  = searchParams_get name' ps.
Proof.
  intros Hne. induction ps as [ | [k v] ps IH ]; simpl; [ reflexivity | ].
  destruct (decide (k = name)) as [-> | Hk].
  - rewrite jsstring_eqb_refl. simpl.
    rewrite (jsstring_eqb_neq name name') by assumption. exact IH.
  - rewrite (jsstring_eqb_neq k name) by assumption. simpl.
    rewrite IH. reflexivity.
Qed.

(** Setting a parameter leaves the others as they were. *)
Lemma searchParams_get_set_other (name name' value : jsstring) ps :
  name <> name' ->
  searchParams_get name' (searchParams_set name value ps)
  = searchParams_get name' ps.
Proof.
  intros Hne. induction ps as [ | [k v] ps IH ]; simpl.
  - rewrite jsstring_eqb_neq by assumption. reflexivity.
  - destruct (decide (k = name)) as [-> | Hk].
    + rewrite jsstring_eqb_refl. simpl.
      rewrite jsstring_eqb_neq by assumption.
      apply searchParams_get_delete_other; assumption.
    + rewrite (jsstring_eqb_neq k name) by assumption. simpl.
      rewrite IH. reflexivity.
Qed.

Lemma kind_headers_set (name value : jsstring) r :
  kind (headers_set name value r) = kind r.
Proof. reflexivity. Qed.

Lemma kind_cookies_fold (cs : list Cookie) :
  forall r, kind (fold_left (fun r c => cookies_set c r) cs r) = kind r.
Proof. induction cs as [ | c cs IH ]; intros r; simpl; [ | rewrite IH ]; reflexivity. Qed.

(** After the four [headers.set] calls a response carries the four
    security headers, whatever it carried before. *)
Lemma security_headers_set r :
  has_security_headers
    (headers_set (js "X-XSS-Protection") (js "1; mode=block")
       (headers_set (js "Referrer-Policy")
          (js "strict-origin-when-cross-origin")
          (headers_set (js "X-Content-Type-Options") (js "nosniff")
             (headers_set (js "X-Frame-Options") (js "DENY") r)))).
Proof.
  unfold has_security_headers, securityHeaders, headers_get, headers_set.
  repeat constructor; cbn [fst snd headers];
    repeat first
      [ rewrite lookup_insert_eq; reflexivity
      | rewrite lookup_insert_ne by (vm_compute; discriminate) ].
Qed.

(** A redirection answer has no header of its own. *)
Lemma NextResponse_redirect_headers (url : URL) (name : jsstring) :
  headers_get name (NextResponse_redirect url) = None.
Proof. apply lookup_empty. Qed.

(** The answer of [updateSession] carries the security headers exactly
    when it lets the request continue. *)
Lemma updateSession_security_headers_iff request auth :
  has_security_headers (updateSession request auth)
  <-> kind (updateSession request auth) = Next.
Proof.
  unfold updateSession.
  set (resp := match cookiesToSet auth with
               | Some cs => _ | None => _ end).
  assert (Hk : kind resp = Next).
  { subst resp. destruct (cookiesToSet auth);
      [ apply kind_cookies_fold | reflexivity ]. }
  destruct (isPublicPath _ || isStaticFile _);
    [ | destruct (user auth) ].
  - split; [ intros _; exact Hk | intros _; apply security_headers_set ].
  - split; [ intros _; exact Hk | intros _; apply security_headers_set ].
  - split; [ | discriminate ].
    intros H. inversion H as [ | ? ? H1 _ ]; subst.
    simpl in H1. unfold headers_get in H1. simpl in H1.
    rewrite lookup_empty in H1. discriminate.
Qed.

(** *** The claims about [updateSession] *)

(** C5, at an input where the code departs from it.  A request for the
    protected path ["/polls"] without a principal is answered by the
    redirection to ["/login?redirect=/polls"], and this answer carries
    none of the four security headers: they were set on the response that
    is not returned. *)
Theorem updateSession_redirect_lacks_security_headers :
  let response :=
    updateSession (Samples.request_to (js "/polls")) Samples.anonymous in
  kind response
    = Redirect (mkURL (js "http://localhost:3000") (js "/login")
                  [ (js "redirect", js "/polls") ])
  /\ headers_get (js "X-Frame-Options") response = None
  /\ headers_get (js "X-Content-Type-Options") response = None
  /\ headers_get (js "Referrer-Policy") response = None
  /\ headers_get (js "X-XSS-Protection") response = None
  /\ ~ has_security_headers response.
Proof.
  intros response.
  assert (Hk : kind response
               = Redirect (mkURL (js "http://localhost:3000") (js "/login")
                             [ (js "redirect", js "/polls") ]))
    by (vm_compute; reflexivity).
  assert (Hr : response = NextResponse_redirect
                 (mkURL (js "http://localhost:3000") (js "/login")
                    [ (js "redirect", js "/polls") ]))
    by (vm_compute; reflexivity).
  split; [ exact Hk | ].
  rewrite Hr.
  repeat (split; [ apply NextResponse_redirect_headers | ]).
  rewrite <- Hr. intros H.
  apply updateSession_security_headers_iff in H.
  subst response. rewrite H in Hk. discriminate.
Qed.

(** C6.  For every request: if its path is public (it starts with a
    member of [publicPaths]) or names a static file, the request
    continues, whoever the caller is; otherwise, when no principal was
    resolved, the answer is a redirection to ["/login"] whose [redirect]
    parameter is the path of the request; and when a principal was
    resolved the request continues. *)
Theorem updateSession_gate request auth :
  let path := pathname (nextUrl request) in
  let response := updateSession request auth in
  (isPublicPath path || isStaticFile path = true -> kind response = Next)
  /\ (isPublicPath path || isStaticFile path = false ->
      user auth = None ->
      exists url,
        kind response = Redirect url
        /\ origin url = origin (nextUrl request)
        /\ pathname url = js "/login"
        /\ searchParams_get (js "redirect") (searchParams url) = Some path)
  /\ (forall u, user auth = Some u -> kind response = Next).
Proof.
  intros path response. subst response. unfold updateSession.
  set (resp := match cookiesToSet auth with
               | Some cs => _ | None => _ end).
  assert (Hk : kind resp = Next).
  { subst resp. destruct (cookiesToSet auth);
      [ apply kind_cookies_fold | reflexivity ]. }
  fold path. split; [ | split ].
  - intros ->. exact Hk.
  - intros -> ->. eexists. split; [ reflexivity | ].
    repeat split. apply searchParams_get_set.
  - intros u ->. destruct (isPublicPath path || isStaticFile path); exact Hk.
Qed.

Lemma updateSession_gate_witness :
  kind (updateSession (Samples.request_to (js "/favicon.ico"))
          Samples.anonymous) = Next
  /\ (exists url,
         kind (updateSession (Samples.request_to (js "/polls/42"))
                 Samples.anonymous) = Redirect url
         /\ pathname url = js "/login"
         /\ searchParams_get (js "redirect") (searchParams url)
            = Some (js "/polls/42"))
  /\ kind (updateSession (Samples.request_to (js "/polls/42"))
             Samples.signed_in) = Next.
Proof.
  split; [ | split ].
  - apply (updateSession_gate (Samples.request_to (js "/favicon.ico"))
             Samples.anonymous).
    vm_compute. reflexivity.
  - destruct (updateSession_gate (Samples.request_to (js "/polls/42"))
                Samples.anonymous) as (_ & Hredirect & _).
    destruct Hredirect as (url & Hk & _ & Hp & Hq);
      [ vm_compute; reflexivity | reflexivity | ].
    exists url. repeat split; assumption.
  - destruct (updateSession_gate (Samples.request_to (js "/polls/42"))
                Samples.signed_in) as (_ & _ & Hnext).
    apply (Hnext (mkUser (js "user-1"))). reflexivity.
Defined.

End MiddlewareFacts.

(* ===================================================================== *)
(** ** More about strings and the matcher                                 *)
(* ===================================================================== *)

Module StringFacts.
Import Regex RegexFacts.

Implicit Types (s p w : jsstring) (c : N).

Lemma code_eqb_eq (a b : N) : code_eqb a b = true <-> a = b.
Proof. unfold code_eqb. apply N.eqb_eq. Qed.

Lemma startsWith_app p : forall s, startsWith p s = true <-> exists t, s = p ++ t.
Proof.
  induction p as [ | a p IH ]; intros s; simpl.
  - split; [ intros _; exists s; reflexivity | reflexivity ].
  - destruct s as [ | b s ].
    + split; [ discriminate | intros (t & E); discriminate ].
    + rewrite andb_true_iff, code_eqb_eq, IH. split.
      * intros (-> & t & ->). exists t. reflexivity.
      * intros (t & E). injection E as -> ->. split; [ reflexivity | eauto ].
Qed.

(** *** [trim] *)

Lemma trimStart_split s :
  exists l, s = l ++ trimStart s /\ forallb isWhiteSpace l = true.
Proof.
  induction s as [ | c s (l & E & Hl) ]; simpl.
  - exists []. split; reflexivity.
  - destruct (isWhiteSpace c) eqn:Hc.
    + exists (c :: l). simpl. rewrite Hc, Hl. split; [ by f_equal | reflexivity ].
    + exists []. split; reflexivity.
Qed.

Lemma trimStart_head s :
  match trimStart s with
  | [] => True
  | c :: _ => isWhiteSpace c = false
  end.
Proof.
  induction s as [ | c s IH ]; simpl; [ exact I | ].
  destruct (isWhiteSpace c) eqn:Hc; [ exact IH | exact Hc ].
Qed.

(** A string that does not start with white space is left alone. *)
Lemma trimStart_id s :
  match s with [] => True | c :: _ => isWhiteSpace c = false end ->
  trimStart s = s.
Proof. destruct s as [ | c s ]; simpl; [ reflexivity | intros ->; reflexivity ]. Qed.

Lemma trimStart_last s :
  forall d, isWhiteSpace (List.last s d) = false ->
            s <> [] -> List.last (trimStart s) d = List.last s d.
Proof.
  induction s as [ | c s IH ]; intros d Hd Hne; [ congruence | ].
  simpl trimStart. destruct (isWhiteSpace c) eqn:Hc; [ | reflexivity ].
  destruct s as [ | c' s ].
  - simpl in Hd. congruence.
  - change (List.last (c :: c' :: s) d) with (List.last (c' :: s) d) in *.
    apply IH; [ assumption | discriminate ].
Qed.

Lemma trimStart_nonempty_last s d :
  isWhiteSpace (List.last s d) = false -> s <> [] -> trimStart s <> [].
Proof.
  induction s as [ | c s IH ]; intros Hd Hne; [ congruence | ].
  simpl. destruct (isWhiteSpace c) eqn:Hc; [ | discriminate ].
  destruct s as [ | c' s ]; [ simpl in Hd; congruence | ].
  apply IH; [ exact Hd | discriminate ].
Qed.

Lemma trimEnd_split s :
  exists r, s = trimEnd s ++ r /\ forallb isWhiteSpace r = true.
Proof.
  unfold trimEnd. destruct (trimStart_split (rev s)) as (l & E & Hl).
  exists (rev l). split.
  - rewrite <- rev_app_distr, <- E, rev_involutive. reflexivity.
  - rewrite forallb_forall in *. intros c Hc. apply Hl, in_rev. assumption.
Qed.

Lemma hd_rev_last (s : jsstring) d : hd d (rev s) = List.last s d.
Proof.
  induction s as [ | c s IH ] using rev_ind; [ reflexivity | ].
  rewrite rev_app_distr, last_last. reflexivity.
Qed.

(** The last character left by [trimEnd] is not white space. *)
Lemma trimEnd_last s d :
  trimEnd s <> [] -> isWhiteSpace (List.last (trimEnd s) d) = false.
Proof.
  unfold trimEnd. intros Hne. rewrite <- hd_rev_last, rev_involutive.
  pose proof (trimStart_head (rev s)) as H.
  destruct (trimStart (rev s)); [ contradiction Hne; reflexivity | exact H ].
Qed.

Lemma trimEnd_head s :
  match s with [] => True | c :: _ => isWhiteSpace c = false end ->
  match trimEnd s with [] => True | c :: _ => isWhiteSpace c = false end.
Proof.
  destruct s as [ | c s ]; [ intros _; exact I | intros Hc ].
  destruct (trimEnd_split (c :: s)) as (r & E & Hr).
  destruct (trimEnd (c :: s)) as [ | c' t ] eqn:Ht; [ exact I | ].
  simpl in E. injection E as -> _. exact Hc.
Qed.

(** [trim] removes a run of white space at each end and nothing else, and
    what it leaves neither starts nor ends with white space. *)
Lemma trim_split s :
  exists l r,
    s = l ++ trim s ++ r
    /\ forallb isWhiteSpace l = true /\ forallb isWhiteSpace r = true
    /\ match trim s with [] => True | c :: _ => isWhiteSpace c = false end
    /\ (forall d, trim s <> [] -> isWhiteSpace (List.last (trim s) d) = false).
Proof.
  unfold trim.
  destruct (trimStart_split s) as (l & El & Hl).
  destruct (trimEnd_split (trimStart s)) as (r & Er & Hr).
  exists l, r. split; [ by rewrite <- Er | ].
  split; [ assumption | ]. split; [ assumption | ].
  split; [ apply trimEnd_head, trimStart_head | ].
  intros d. apply trimEnd_last.
Qed.

Lemma trimEnd_id s :
  (forall d, s <> [] -> isWhiteSpace (List.last s d) = false) -> trimEnd s = s.
Proof.
  intros H. unfold trimEnd. destruct s as [ | c s ]; [ reflexivity | ].
  rewrite trimStart_id; [ apply rev_involutive | ].
  specialize (H c ltac:(discriminate)). rewrite <- hd_rev_last in H.
  destruct (rev (c :: s)) as [ | c' t ]; [ exact I | exact H ].
Qed.

(** A string with no white space at its ends is a fixed point of [trim]. *)
Lemma trim_id s :
  match s with [] => True | c :: _ => isWhiteSpace c = false end ->
  (forall d, s <> [] -> isWhiteSpace (List.last s d) = false) ->
  trim s = s.
Proof. intros Hh Hl. unfold trim. rewrite (trimStart_id _ Hh). apply trimEnd_id, Hl. Qed.

Lemma trim_idempotent s : trim (trim s) = trim s.
Proof.
  destruct (trim_split s) as (l & r & _ & _ & _ & Hh & Hl).
  apply trim_id; assumption.
Qed.

(** [trim] keeps a part of the string. *)
Lemma trim_incl s c : In c (trim s) -> In c s.
Proof.
  destruct (trim_split s) as (l & r & E & _). intros H.
  rewrite E. apply in_or_app. right. apply in_or_app. left. exact H.
Qed.

Lemma trim_length s : (length (trim s) <= length s)%nat.
Proof.
  destruct (trim_split s) as (l & r & E & _).
  rewrite E at 2. rewrite !length_app. lia.
Qed.

(** *** [split_first] and [remove_class] *)

Lemma split_first_no_sep (sep : N) s : ~ In sep (split_first sep s).
Proof.
  induction s as [ | c s IH ]; simpl; [ tauto | ].
  destruct (code_eqb c sep) eqn:E; simpl; [ tauto | ].
  intros [-> | H]; [ | tauto ].
  assert (code_eqb sep sep = true) by (apply code_eqb_eq; reflexivity).
  congruence.
Qed.

Lemma split_first_prefix (sep : N) s : exists t, s = split_first sep s ++ t.
Proof.
  induction s as [ | c s (t & E) ]; simpl; [ exists []; reflexivity | ].
  destruct (code_eqb c sep); [ exists (c :: s); reflexivity | ].
  exists t. simpl. by f_equal.
Qed.

Lemma split_first_id (sep : N) s : ~ In sep s -> split_first sep s = s.
Proof.
  induction s as [ | c s IH ]; simpl; [ reflexivity | intros H ].
  destruct (code_eqb c sep) eqn:E.
  - apply code_eqb_eq in E. tauto.
  - f_equal. apply IH. tauto.
Qed.

Lemma remove_class_In (cls : N -> bool) s c :
  In c (remove_class cls s) <-> In c s /\ cls c = false.
Proof.
  unfold remove_class. rewrite filter_In, negb_true_iff. reflexivity.
Qed.

Lemma remove_class_id (cls : N -> bool) s :
  (forall c, In c s -> cls c = false) -> remove_class cls s = s.
Proof.
  induction s as [ | c s IH ]; simpl; [ reflexivity | intros H ].
  rewrite (H c) by auto. simpl. f_equal. apply IH. auto.
Qed.

Lemma remove_class_length (cls : N -> bool) s :
  (length (remove_class cls s) <= length s)%nat.
Proof. apply filter_length_le. Qed.

(** *** Classes under [*] and [+], literals, alternatives, suffixes *)

Lemma Matches_Star_Cls_forall (r0 : re) w :
  Matches r0 w -> forall cls, r0 = Star (Cls cls) -> forallb cls w = true.
Proof.
  induction 1 as [ | | | | | | r' s1 s2 H1 _ H2 IH2 ]; intros cls E;
    try discriminate; [ reflexivity | ].
  injection E as ->. apply Matches_Cls_inv in H1 as (c & -> & Hc).
  simpl. rewrite Hc. apply IH2. reflexivity.
Qed.

Lemma Matches_Star_Cls (cls : N -> bool) w :
  Matches (Star (Cls cls)) w <-> forallb cls w = true.
Proof.
  split.
  - intros H. eapply Matches_Star_Cls_forall; eauto.
  - induction w as [ | c w IH ]; simpl; [ constructor | ].
    intros [Hc Hw]%andb_true_iff.
    apply (MStarCons (Cls cls) [c] w); [ constructor; assumption | auto ].
Qed.

Lemma Matches_Plus_Cls (cls : N -> bool) w :
  Matches (Plus (Cls cls)) w <-> w <> [] /\ forallb cls w = true.
Proof.
  unfold Plus. split.
  - intros H. apply Matches_Cat_inv in H as (s1 & s2 & -> & H1 & H2).
    apply Matches_Cls_inv in H1 as (c & -> & Hc).
    apply Matches_Star_Cls in H2. simpl. rewrite Hc, H2.
    split; [ discriminate | reflexivity ].
  - intros [Hne Hall]. destruct w as [ | c w ]; [ congruence | ].
    simpl in Hall. apply andb_true_iff in Hall as [Hc Hw].
    apply (MCat (Cls cls) (Star (Cls cls)) [c] w);
      [ constructor; assumption | apply Matches_Star_Cls; assumption ].
Qed.

Lemma Matches_Chr c w : Matches (Chr c) w <-> w = [c].
Proof.
  unfold Chr. split.
  - intros H. apply Matches_Cls_inv in H as (d & -> & Hd).
    apply code_eqb_eq in Hd. by subst.
  - intros ->. constructor. apply code_eqb_eq. reflexivity.
Qed.

Lemma Matches_Lit_i w : forall s,
  Matches (Lit_i w) s <-> map canonicalize s = map canonicalize w.
Proof.
  induction w as [ | c w IH ]; intros s; simpl.
  - split.
    + intros H. apply Matches_Eps_inv in H as ->. reflexivity.
    + intros H. apply map_eq_nil in H as ->. constructor.
  - split.
    + intros H. apply Matches_Cat_inv in H as (s1 & s2 & -> & H1 & H2).
      apply Matches_Cls_inv in H1 as (d & -> & Hd).
      apply code_eqb_eq in Hd. apply IH in H2. simpl. by rewrite Hd, H2.
    + intros H. destruct s as [ | d s ]; [ discriminate | ].
      simpl in H. injection H as Hd Hs.
      apply (MCat (Chr_i c) (Lit_i w) [d] s); [ | apply IH; assumption ].
      constructor. apply code_eqb_eq. congruence.
Qed.

Lemma Matches_AltOf (rs : list re) w :
  Matches (AltOf rs) w <-> exists r, In r rs /\ Matches r w.
Proof.
  induction rs as [ | r rs IH ]; simpl.
  - split; [ intros H; destruct (Matches_Void_inv _ H) | intros (r & [] & _) ].
  - split.
    + intros [H | H]%Matches_Alt_inv; [ eauto | ].
      apply IH in H as (r' & Hin & H). eauto.
    + intros (r' & [-> | Hin] & H); [ apply MAltL; assumption | ].
      apply MAltR, IH. eauto.
Qed.

Lemma test_suffix_Matches (r : re) s :
  test_suffix r s = true <-> exists s0 s1, s = s0 ++ s1 /\ Matches r s1.
Proof.
  induction s as [ | c s IH ].
  - simpl. rewrite orb_false_r. split.
    + intros H. exists [], []. split; [ reflexivity | ].
      apply nullable_Matches_nil; assumption.
    + intros (s0 & s1 & E & H). symmetry in E.
      apply app_eq_nil in E as [_ ->]. apply Matches_nil_nullable; assumption.
  - change (test_suffix r (c :: s))
      with (matches r (c :: s) || test_suffix r s).
    rewrite orb_true_iff, IH, matches_Matches. split.
    + intros [H | (s0 & s1 & -> & H)].
      * exists [], (c :: s). split; [ reflexivity | assumption ].
      * exists (c :: s0), s1. split; [ reflexivity | assumption ].
    + intros (s0 & s1 & E & H). destruct s0 as [ | c0 s0 ].
      * simpl in E. subst s1. left. assumption.
      * simpl in E. injection E as <- ->. right. eauto.
Qed.

End StringFacts.

(* ===================================================================== *)
(** ** validateEmail, sanitizeInput, getClientIP                          *)
(* ===================================================================== *)

Module InputFacts.
Import Regex RegexFacts StringFacts.
Local Open Scope Z_scope.

Implicit Types (s : jsstring) (c : N).

Lemma Matches_emailRegex s :
  Matches emailRegex s <->
  exists local domain tld,
    s = local ++ js "@" ++ domain ++ js "." ++ tld
    /\ local <> [] /\ domain <> [] /\ tld <> []
    /\ forallb notSpaceNorAt (local ++ domain ++ tld) = true.
Proof.
  unfold emailRegex.
  change (js "@") with [64%N]. change (js ".") with [46%N].
  split.
  - intros H.
    apply Matches_Cat_inv in H as (a & r1 & -> & Ha & H).
    apply Matches_Cat_inv in H as (x & r2 & -> & Hx & H).
    apply Matches_Cat_inv in H as (b & r3 & -> & Hb & H).
    apply Matches_Cat_inv in H as (y & t & -> & Hy & Ht).
    apply Matches_Chr in Hx as ->. apply Matches_Chr in Hy as ->.
    apply Matches_Plus_Cls in Ha as [Hane Ha].
    apply Matches_Plus_Cls in Hb as [Hbne Hb].
    apply Matches_Plus_Cls in Ht as [Htne Ht].
    exists a, b, t. repeat split; try assumption.
    rewrite !forallb_app, Ha, Hb, Ht. reflexivity.
  - intros (a & b & t & -> & Hane & Hbne & Htne & Hall).
    rewrite !forallb_app, !andb_true_iff in Hall.
    destruct Hall as (Ha & Hb & Ht).
    repeat (apply MCat);
      first [ apply Matches_Plus_Cls; split; assumption
            | apply Matches_Chr; reflexivity ].
Qed.

(** [validateEmail] accepts exactly the strings of at most 254 code units
    of the form [local@domain.tld] in which the three parts are non-empty
    and hold neither white space nor ["@"]; the domain and the last part
    may themselves contain dots. *)
Theorem validateEmail_shape s :
  validateEmail s = true <->
  (length s <= 254)%nat
  /\ exists local domain tld,
       s = local ++ js "@" ++ domain ++ js "." ++ tld
       /\ local <> [] /\ domain <> [] /\ tld <> []
       /\ forallb notSpaceNorAt (local ++ domain ++ tld) = true.
Proof.
  unfold validateEmail, test_full.
  rewrite andb_true_iff, matches_Matches, Z.leb_le, Matches_emailRegex.
  split.
  - intros [H Hlen]. split; [ lia | assumption ].
  - intros [Hlen H]. split; [ assumption | lia ].
Qed.

(** An accepted address holds no white space and exactly one ["@"]. *)
Theorem validateEmail_one_at s :
  validateEmail s = true ->
  (forall c, In c s -> isWhiteSpace c = false)
  /\ length (List.filter (code_eqb 64) s) = 1%nat.
Proof.
  intros H. unfold validateEmail, test_full in H.
  apply andb_true_iff in H as [H _].
  apply matches_Matches, Matches_emailRegex in H
    as (a & b & t & -> & _ & _ & _ & Hall).
  change (js "@") with [64%N]. change (js ".") with [46%N].
  rewrite !forallb_app, !andb_true_iff in Hall. destruct Hall as (Ha & Hb & Ht).
  assert (Hcls : forall l c, forallb notSpaceNorAt l = true -> In c l ->
                             isWhiteSpace c = false /\ code_eqb c 64 = false).
  { intros l c Hl Hc. rewrite forallb_forall in Hl. specialize (Hl c Hc).
    unfold notSpaceNorAt in Hl. apply negb_true_iff, orb_false_iff in Hl.
    exact Hl. }
  assert (Hno : forall l, forallb notSpaceNorAt l = true ->
                          List.filter (code_eqb 64) l = []).
  { induction l as [ | c l IH ]; [ reflexivity | ].
    intros Hl. cbn [forallb] in Hl. apply andb_true_iff in Hl as [Hc Hl].
    unfold notSpaceNorAt in Hc. apply negb_true_iff, orb_false_iff in Hc.
    destruct Hc as [_ Hc].
    assert (Hc' : code_eqb 64 c = false)
      by (unfold code_eqb in *; by rewrite N.eqb_sym).
    cbn [List.filter]. rewrite Hc'. auto. }
  split.
  - intros c Hc. rewrite !in_app_iff in Hc.
    destruct Hc as [Hc | [Hc | [Hc | [Hc | Hc]]]].
    + exact (proj1 (Hcls a c Ha Hc)).
    + destruct Hc as [<- | []]. reflexivity.
    + exact (proj1 (Hcls b c Hb Hc)).
    + destruct Hc as [<- | []]. reflexivity.
    + exact (proj1 (Hcls t c Ht Hc)).
  - rewrite !List.filter_app, !length_app, (Hno a Ha), (Hno b Hb), (Hno t Ht).
    reflexivity.
Qed.

Lemma validateEmail_one_at_witness :
  length (List.filter (code_eqb 64) (js "user@example.com")) = 1%nat.
Proof.
  apply (validateEmail_one_at (js "user@example.com")). reflexivity.
Defined.

(** The output of [sanitizeInput] holds no ["<"] and no [">"], every code
    unit of it comes from the input, and it is not longer; on an input
    without angle brackets it is the trimmed input, and an input without
    angle brackets and without white space at its ends is returned as it
    is.  White space uncovered by a removed bracket stays: after
    [sanitizeInput] a string may still start with a space. *)
Theorem sanitizeInput_output s :
  (forall c, In c (sanitizeInput s) -> In c s /\ c <> 60%N /\ c <> 62%N)
  /\ (length (sanitizeInput s) <= length s)%nat
  /\ ((forall c, In c s -> isAngle c = false) -> sanitizeInput s = trim s)
  /\ ((forall c, In c s -> isAngle c = false) ->
      match s with [] => True | c :: _ => isWhiteSpace c = false end ->
      (forall d, s <> [] -> isWhiteSpace (List.last s d) = false) ->
      sanitizeInput s = s)
  /\ sanitizeInput (js "< a") = js " a".
Proof.
  unfold sanitizeInput. split; [ | split; [ | split; [ | split ] ] ].
  - intros c [Hc Hcls]%remove_class_In. split; [ apply trim_incl; exact Hc | ].
    unfold isAngle in Hcls. apply orb_false_iff in Hcls as [H1 H2].
    split; intros ->; discriminate.
  - etransitivity; [ apply remove_class_length | apply trim_length ].
  - intros Hs. apply remove_class_id. intros c Hc. apply Hs, trim_incl, Hc.
  - intros Hs Hh Hl. rewrite (trim_id _ Hh Hl). apply remove_class_id, Hs.
  - reflexivity.
Qed.

(** When [x-forwarded-for] is a non-empty string, [getClientIP] answers
    from it alone, whatever [x-real-ip] holds: the answer is a part of the
    header that holds no comma and has no white space at its ends. *)
Theorem getClientIP_forwarded (f : jsstring) (realIP realIP' : option jsstring) :
  f <> [] ->
  let ip := getClientIP (mkHeaders (Some f) realIP) in
  getClientIP (mkHeaders (Some f) realIP') = ip
  /\ ~ In 44%N ip
  /\ (exists pre post, f = pre ++ ip ++ post)
  /\ match ip with [] => True | c :: _ => isWhiteSpace c = false end
  /\ (forall d, ip <> [] -> isWhiteSpace (List.last ip d) = false).
Proof.
  intros Hf ip. subst ip. unfold getClientIP. simpl.
  destruct f as [ | c f ]; [ congruence | ]. cbn [truthy].
  set (seg := split_first 44 (c :: f)).
  destruct (trim_split seg) as (l & r & E & _ & _ & Hh & Hl).
  split; [ reflexivity | ]. split; [ | split; [ | split; assumption ] ].
  - intros H. apply trim_incl in H. revert H. apply split_first_no_sep.
  - destruct (split_first_prefix 44 (c :: f)) as (t & Et). fold seg in Et.
    exists l, (r ++ t). rewrite Et at 1. rewrite E at 1.
    by rewrite <- !app_assoc.
Qed.

Lemma getClientIP_forwarded_witness :
  ~ In 44%N
    (getClientIP (mkHeaders (Some (js " 203.0.113.7 , 10.0.0.1")) None)).
Proof.
  refine (proj1 (proj2 (getClientIP_forwarded
                          (js " 203.0.113.7 , 10.0.0.1") None None _))).
  discriminate.
Defined.

(** [getClientIP] takes the caller's word: any non-empty string without a
    comma and without white space at its ends, sent as [x-forwarded-for],
    is returned as the client address. *)
Theorem getClientIP_trusts_forwarded (ip : jsstring) (realIP : option jsstring) :
  ip <> [] ->
  ~ In 44%N ip ->
  match ip with [] => True | c :: _ => isWhiteSpace c = false end ->
  (forall d, isWhiteSpace (List.last ip d) = false) ->
  getClientIP (mkHeaders (Some ip) realIP) = ip.
Proof.
  intros Hne Hcomma Hh Hl. unfold getClientIP. simpl.
  destruct ip as [ | c ip ]; [ congruence | ]. cbn [truthy].
  rewrite split_first_id by assumption.
  apply trim_id; [ assumption | intros d _; apply Hl ].
Qed.

Lemma getClientIP_trusts_forwarded_witness :
  getClientIP (mkHeaders (Some (js "198.51.100.23")) (Some (js "203.0.113.7")))
  = js "198.51.100.23".
Proof.
  apply (getClientIP_trusts_forwarded (js "198.51.100.23")
           (Some (js "203.0.113.7"))).
  - discriminate.
  - vm_compute. intuition discriminate.
  - reflexivity.
  - intros d. reflexivity.
Defined.

End InputFacts.

(* ===================================================================== *)
(** ** More about the rate limiter                                        *)
(* ===================================================================== *)

Module RateLimitMore.
Import Timing History RateLimitFacts.
Local Open Scope Z_scope.

Implicit Types (id : jsstring) (maxAttempts windowMs now start prev sweep : Z).
Implicit Types (store : attemptStore) (entry : RateLimitEntry).
Implicit Types (times : list Z) (events : list event).

(** A call rewrites the entry of its identifier and nothing else. *)
Lemma checkRateLimit_store id maxAttempts windowMs now store :
  (checkRateLimit id maxAttempts windowMs now store).2
  = <[id := next_entry maxAttempts windowMs now (store !! id)]> store.
Proof.
  unfold checkRateLimit, next_entry.
  destruct (store !! id) as [entry | ]; [ | reflexivity ].
  destruct (now - lastAttempt entry >? windowMs); [ reflexivity | ].
  simpl. destruct (count entry + 1 >? maxAttempts); simpl.
  - by rewrite orb_true_r.
  - by rewrite orb_false_r.
Qed.

(** Identifiers do not interfere: a call for another identifier changes
    neither the decision of a call nor, up to the order of the two calls,
    the store they leave. *)
Theorem checkRateLimit_identifiers_independent
    id maxAttempts windowMs now id' maxAttempts' windowMs' now' store :
  id <> id' ->
  (checkRateLimit id maxAttempts windowMs now
     (checkRateLimit id' maxAttempts' windowMs' now' store).2).1
  = (checkRateLimit id maxAttempts windowMs now store).1
  /\ (checkRateLimit id maxAttempts windowMs now
        (checkRateLimit id' maxAttempts' windowMs' now' store).2).2
     = (checkRateLimit id' maxAttempts' windowMs' now'
          (checkRateLimit id maxAttempts windowMs now store).2).2.
Proof.
  intros Hne. split.
  - apply checkRateLimit_local. apply checkRateLimit_frame. congruence.
  - rewrite !checkRateLimit_store.
    rewrite !lookup_insert_ne by congruence.
    apply insert_insert_ne. congruence.
Qed.

Lemma checkRateLimit_identifiers_independent_witness :
  (checkRateLimit (js "login:203.0.113.7") 5 900000 2000
     (checkRateLimit (js "login:198.51.100.23") 5 900000 1000 ∅).2).1
  = (checkRateLimit (js "login:203.0.113.7") 5 900000 2000 ∅).1.
Proof.
  refine (proj1 (checkRateLimit_identifiers_independent
                   (js "login:203.0.113.7") 5 900000 2000
                   (js "login:198.51.100.23") 5 900000 1000 ∅ _)).
  discriminate.
Defined.

(** [clearRateLimit] forgets the identifier whatever the store held for
    it: the next call is answered as a first attempt and leaves the store
    a first attempt would leave; the other identifiers keep their
    entries. *)
Theorem clearRateLimit_forgets id maxAttempts windowMs now store :
  checkRateLimit id maxAttempts windowMs now (clearRateLimit id store)
  = (mkResult true (maxAttempts - 1) (now + windowMs),
     <[id := mkEntry 1 now false]> store)
  /\ clearRateLimit id store !! id = None
  /\ (forall id', id <> id' -> clearRateLimit id store !! id' = store !! id').
Proof.
  unfold clearRateLimit. split; [ | split ].
  - rewrite checkRateLimit_first by apply lookup_delete_eq.
    by rewrite insert_delete_eq.
  - apply lookup_delete_eq.
  - intros id' Hne. by apply lookup_delete_ne.
Qed.

Lemma checkRateLimit_after_cleanup_witness :
  let store : attemptStore := {[ js "a" := mkEntry 2 0 false ]} in
  (checkRateLimit (js "a") 3 3600000 3700000 (cleanup 3650000 store)).1
  = (checkRateLimit (js "a") 3 3600000 3700000 store).1.
Proof.
  intros store.
  refine (proj1 (checkRateLimit_after_cleanup
                   (js "a") 3 3600000 3650000 3700000 store _ _)); lia.
Defined.

(** The decision agrees with the entry the call leaves: for a limit of at
    least 1 the entry is stamped with the time of the call, the reset time
    is one window later, the call is allowed exactly when the stored count
    is within the limit, the remaining attempts are the limit minus the
    stored count, cut at 0, and a refused identifier is marked blocked. *)
Theorem checkRateLimit_decision_matches_entry
    id maxAttempts windowMs now store :
  1 <= maxAttempts ->
  let r := (checkRateLimit id maxAttempts windowMs now store).1 in
  exists entry',
    (checkRateLimit id maxAttempts windowMs now store).2 !! id = Some entry'
    /\ lastAttempt entry' = now
    /\ resetTime r = now + windowMs
    /\ (allowed r = true <-> count entry' <= maxAttempts)
    /\ remainingAttempts r = Z.max 0 (maxAttempts - count entry')
    /\ (allowed r = false -> blocked entry' = true).
Proof.
  intros Hmax r. subst r. unfold checkRateLimit.
  destruct (store !! id) as [entry | ];
    [ destruct (now - lastAttempt entry >? windowMs) | ].
  - eexists. simpl. rewrite lookup_insert_eq. split; [ reflexivity | ].
    simpl. repeat split; try lia; discriminate.
  - cbn [count lastAttempt].
    destruct (Z.gtb_spec (count entry + 1) maxAttempts);
      eexists; simpl; rewrite lookup_insert_eq; (split; [ reflexivity | ]);
      simpl; repeat split; try lia; try discriminate; auto.
  - eexists. simpl. rewrite lookup_insert_eq. split; [ reflexivity | ].
    simpl. repeat split; try lia; discriminate.
Qed.

Lemma checkRateLimit_decision_matches_entry_witness :
  exists entry',
    (checkRateLimit (js "a") 5 900000 1000 ∅).2 !! js "a" = Some entry'
    /\ lastAttempt entry' = 1000.
Proof.
  destruct (checkRateLimit_decision_matches_entry (js "a") 5 900000 1000 ∅)
    as (entry' & Hl & Hstamp & _); [ lia | ].
  exists entry'. split; assumption.
Defined.

(** The budget is not tied to a fixed window.  From a call that opens a
    window, in a run where every call comes at most [windowMs] after the
    call before it, however long the whole run lasts, the first
    [maxAttempts] calls are allowed and the next one is refused. *)
Theorem checkRateLimit_budget_paced
    id maxAttempts windowMs start times now store :
  opens_window id windowMs start store ->
  Z.of_nat (length (start :: times)) = maxAttempts ->
  paced windowMs start (times ++ [now]) ->
  map allowed
    (checkRateLimit_seq id maxAttempts windowMs
       (start :: times ++ [now]) store).1
  = replicate (length (start :: times)) true ++ [false].
Proof.
  intros Hopen Hlen Hp.
  cbn [checkRateLimit_seq].
  rewrite (checkRateLimit_opens _ _ _ _ _ Hopen).
  set (entry1 := mkEntry 1 start false).
  set (store1 := <[id := entry1]> store).
  assert (H1 : store1 !! id = Some entry1) by apply lookup_insert_eq.
  destruct (checkRateLimit_seq_paced id maxAttempts windowMs _ _ _ H1 Hp)
    as [Hd _].
  destruct (checkRateLimit_seq id maxAttempts windowMs (times ++ [now]) store1)
    as [rs store2].
  simpl in Hd. subst rs. cbn [fst map length replicate].
  rewrite decisions_app, map_app. cbn [length] in Hlen.
  rewrite Nat2Z.inj_succ in Hlen.
  rewrite map_allowed_true by (apply decisions_allowed; lia).
  rewrite decisions_length. cbn [map allowed app]. unfold decision.
  destruct (Z.gtb_spec (1 + Z.of_nat (length times) + 1) maxAttempts);
    [ reflexivity | lia ].
Qed.

Lemma checkRateLimit_budget_paced_witness :
  map allowed
    (checkRateLimit_seq (js "a") 3 900000
       (0 :: [800000; 1600000] ++ [2400000]) ∅).1
  = [true; true; true; false].
Proof.
  apply (checkRateLimit_budget_paced (js "a") 3 900000 0
           [800000; 1600000] 2400000 ∅).
  - exact I.
  - reflexivity.
  - simpl. lia.
Defined.

(** The reset time of a refusal is exact for a caller that then stays
    quiet: a retry up to the reset time is refused again, and a retry after
    it is answered as a first attempt. *)
Theorem checkRateLimit_resetTime_exact
    id maxAttempts windowMs now store retry :
  allowed (checkRateLimit id maxAttempts windowMs now store).1 = false ->
  let r := (checkRateLimit id maxAttempts windowMs now store).1 in
  let store' := (checkRateLimit id maxAttempts windowMs now store).2 in
  (retry <= resetTime r ->
   allowed (checkRateLimit id maxAttempts windowMs retry store').1 = false)
  /\ (resetTime r < retry ->
      (checkRateLimit id maxAttempts windowMs retry store').1
      = mkResult true (maxAttempts - 1) (retry + windowMs)).
Proof.
  intros Hrefused r store'. subst r store'.
  destruct (store !! id) as [entry | ] eqn:H.
  2:{ rewrite (checkRateLimit_first _ _ _ _ _ H) in Hrefused. discriminate. }
  destruct (Z_le_gt_dec (now - lastAttempt entry) windowMs) as [Hin | Hexp].
  2:{ rewrite (checkRateLimit_expired _ _ _ _ _ _ H Hexp) in Hrefused.
      discriminate. }
  rewrite (checkRateLimit_counted _ _ _ _ _ _ H Hin) in *.
  unfold decision in *.
  destruct (Z.gtb_spec (count entry + 1) maxAttempts) as [Hover | ];
    [ clear Hrefused | discriminate ].
  rewrite orb_true_r. cbn [fst snd resetTime].
  set (entry' := mkEntry (count entry + 1) now true).
  assert (Hl : (<[id := entry']> store) !! id = Some entry')
    by apply lookup_insert_eq.
  split; intros Hretry.
  - rewrite (checkRateLimit_counted _ _ _ _ _ _ Hl) by (simpl; lia).
    unfold decision. simpl.
    destruct (Z.gtb_spec (count entry + 1 + 1) maxAttempts);
      [ reflexivity | lia ].
  - rewrite (checkRateLimit_expired _ _ _ _ _ _ Hl) by (simpl; lia).
    reflexivity.
Qed.

Lemma checkRateLimit_resetTime_exact_witness :
  let store : attemptStore := {[ js "a" := mkEntry 5 1000 false ]} in
  allowed
    (checkRateLimit (js "a") 5 900000 902000
       (checkRateLimit (js "a") 5 900000 2000 store).2).1 = false.
Proof.
  intros store.
  refine (proj1 (checkRateLimit_resetTime_exact
                   (js "a") 5 900000 2000 store 902000 _) _).
  - vm_compute. reflexivity.
  - vm_compute. discriminate.
Defined.

(** *** Histories *)

Lemma store_after_snoc events (ev : event) :
  store_after (events ++ [ev]) = step (store_after events) ev.
Proof. unfold store_after. by rewrite fold_left_app. Qed.

(** Whatever calls, clears and sweeps happened since the module was
    loaded, every entry of the store has a count of at least 1, a blocked
    entry has a count of at least 2, and the timestamp of the entry is the
    time of a call that was made for its identifier. *)
Theorem store_after_invariant events id entry :
  store_after events !! id = Some entry ->
  1 <= count entry
  /\ (blocked entry = true -> 2 <= count entry)
  /\ exists maxAttempts windowMs,
       In (Check id maxAttempts windowMs (lastAttempt entry)) events.
Proof.
  revert id entry.
  induction events as [ | ev events IH ] using rev_ind; intros id entry.
  - unfold store_after. simpl. rewrite lookup_empty. discriminate.
  - rewrite store_after_snoc.
    assert (Hold : forall e, store_after events !! id = Some e ->
              1 <= count e /\ (blocked e = true -> 2 <= count e)
              /\ exists maxAttempts windowMs,
                   In (Check id maxAttempts windowMs (lastAttempt e))
                      (events ++ [ev])).
    { intros e He. destruct (IH id e He) as (H1 & H2 & m & w & Hin).
      split; [ assumption | ]. split; [ assumption | ].
      exists m, w. apply in_or_app. left. assumption. }
    destruct ev as [id' m w t | id' | t]; simpl.
    + rewrite checkRateLimit_store.
      destruct (decide (id' = id)) as [-> | Hne].
      * rewrite lookup_insert_eq. intros [= <-].
        assert (Hin : exists maxAttempts windowMs,
                   In (Check id maxAttempts windowMs t)
                      (events ++ [Check id m w t])).
        { exists m, w. apply in_or_app. right. left. reflexivity. }
        unfold next_entry.
        destruct (store_after events !! id) as [e | ] eqn:He;
          [ destruct (t - lastAttempt e >? w) | ]; simpl;
          try (split; [ lia | split; [ discriminate | exact Hin ] ]).
        destruct (IH id e He) as (H1 & _).
        split; [ lia | split; [ intros _; lia | exact Hin ] ].
      * rewrite lookup_insert_ne by assumption. apply Hold.
    + unfold clearRateLimit. destruct (decide (id' = id)) as [-> | Hne].
      * rewrite lookup_delete_eq. discriminate.
      * rewrite lookup_delete_ne by assumption. apply Hold.
    + rewrite cleanup_lookup.
      destruct (store_after events !! id) as [e | ] eqn:He; [ | discriminate ].
      destruct (decide (t - lastAttempt e > 60 * 60 * 1000));
        [ discriminate | ].
      intros [= <-]. apply Hold. reflexivity.
Qed.

Lemma store_after_invariant_witness :
  1 <= count (mkEntry 2 2000 false).
Proof.
  refine (proj1 (store_after_invariant
                   [ Check (js "a") 5 900000 1000; Sweep 1500;
                     Check (js "a") 5 900000 2000 ]
                   (js "a") (mkEntry 2 2000 false) _)).
  vm_compute. reflexivity.
Defined.

End RateLimitMore.

(* ===================================================================== *)
(** ** More about login                                                   *)
(* ===================================================================== *)

Module LoginMore.
Import Timing History RateLimitFacts RateLimitMore LoginFacts StringFacts.
Local Open Scope Z_scope.

Implicit Types (env : LoginEnv) (data : LoginFormData).
Implicit Types (store : attemptStore) (h : RequestHeaders).

(** [login] looks at the store through the entry of its own key only. *)
Lemma login_local env data store store' :
  (forall h, env_headers env = Normal h ->
             store !! login_key h = store' !! login_key h) ->
  (login env data store).1 = (login env data store').1.
Proof.
  intros Hkey.
  unfold login, try_catch, login_try, bind, await, on_store, ret.
  destruct (env_headers env) as [h | x]; [ | reflexivity ].
  specialize (Hkey h eq_refl). unfold login_key in Hkey.
  pose proof (checkRateLimit_local _ 5 (15 * 60 * 1000) (env_now env) _ _ Hkey)
    as Hd.
  destruct (checkRateLimit _ 5 _ (env_now env) store) as [rl st1].
  destruct (checkRateLimit _ 5 _ (env_now env) store') as [rl' st1'].
  simpl in Hd. subst rl'.
  repeat match goal with
         | |- context [ if ?b then _ else _ ] => destruct b
         | |- context [ match ?c with Normal _ => _ | Throw _ => _ end ] =>
             destruct c
         | |- context [ match ?o with Some _ => _ | None => _ end ] =>
             destruct o
         end; reflexivity.
Qed.

(** [login] writes the entry of its own key only. *)
Lemma login_frame env data store (key : jsstring) :
  (forall h, env_headers env = Normal h -> login_key h <> key) ->
  (login env data store).2 !! key = store !! key.
Proof.
  intros Hkey. destruct (env_headers env) as [h | x] eqn:Hh.
  - rewrite (login_store _ _ _ _ Hh). apply checkRateLimit_frame. auto.
  - unfold login, try_catch, login_try, bind, await. rewrite Hh. reflexivity.
Qed.

Lemma login_key_inj h h' :
  login_key h = login_key h' -> getClientIP h = getClientIP h'.
Proof. unfold login_key. apply app_inv_head. Qed.

(** Two callers with different addresses do not share a budget: what
    [login] answers to one of them does not depend on whether the other
    called [login] before. *)
Theorem login_clients_independent env data env' data' h h' store :
  env_headers env = Normal h ->
  env_headers env' = Normal h' ->
  getClientIP h <> getClientIP h' ->
  (login env data (login env' data' store).2).1 = (login env data store).1.
Proof.
  intros Hh Hh' Hne. apply login_local. intros h0 Hh0.
  assert (h0 = h) by congruence. subst h0.
  apply login_frame. intros h1 Hh1.
  assert (h1 = h') by congruence. subst h1.
  intros E. apply Hne. symmetry. apply login_key_inj. exact E.
Qed.

Lemma login_clients_independent_witness :
  let other :=
    mkLoginEnv (Normal (mkHeaders (Some (js "198.51.100.23")) None)) 500
      (fun _ => js "12:15:01 AM") (Normal tt) (fun _ _ => Normal None) in
  (login (Samples.env_accepting 1000) Samples.credentials
     (login other Samples.credentials ∅).2).1
  = (login (Samples.env_accepting 1000) Samples.credentials ∅).1.
Proof.
  intros other.
  apply (login_clients_independent (Samples.env_accepting 1000)
           Samples.credentials other Samples.credentials
           Samples.client_headers
           (mkHeaders (Some (js "198.51.100.23")) None) ∅).
  - reflexivity.
  - reflexivity.
  - vm_compute. discriminate.
Defined.

(** Every attempt counts, whatever was submitted and whatever the provider
    answered or threw: inside the window [login] raises the count of the
    caller's entry by one, and once five attempts are on the count it
    answers with the rate-limit message, built from the time of this call
    plus fifteen minutes. *)
Theorem login_counts_every_attempt env data store h entry :
  env_headers env = Normal h ->
  store !! login_key h = Some entry ->
  env_now env - lastAttempt entry <= 900000 ->
  (login env data store).2 !! login_key h
    = Some (mkEntry (count entry + 1) (env_now env)
              (blocked entry || (count entry + 1 >? 5)))
  /\ (5 <= count entry ->
      (login env data store).1
      = Normal (mkActionResult
                  (Some (err_rate_limited env (env_now env + 900000))))).
Proof.
  intros Hh Hl Hin. split.
  - rewrite (login_store _ _ _ _ Hh).
    rewrite (checkRateLimit_counted _ _ _ _ _ _ Hl Hin).
    apply lookup_insert_eq.
  - intros Hc.
    unfold login, try_catch, login_try, bind, await, on_store, ret.
    rewrite Hh. change (15 * 60 * 1000) with 900000.
    unfold login_key in Hl.
    rewrite (checkRateLimit_counted _ _ _ _ _ _ Hl Hin).
    unfold decision.
    destruct (Z.gtb_spec (count entry + 1) 5); [ reflexivity | lia ].
Qed.

Lemma login_counts_every_attempt_witness :
  let store : attemptStore :=
    {[ js "login:203.0.113.7" := mkEntry 5 1000 false ]} in
  (login (Samples.env_accepting 2000) (mkLoginData [] []) store).2
    !! js "login:203.0.113.7"
  = Some (mkEntry 6 2000 true).
Proof.
  intros store.
  refine (proj1 (login_counts_every_attempt (Samples.env_accepting 2000)
                   (mkLoginData [] []) store Samples.client_headers
                   (mkEntry 5 1000 false) _ _ _)).
  - reflexivity.
  - apply lookup_singleton_eq.
  - simpl. lia.
Defined.

(** When the limiter refuses, or a field is empty, or the sanitised email
    is malformed, [login] answers without the provider: the answer and the
    store are the same in every world that agrees on the request headers,
    the clock and the time format, whatever [createClient] and
    [signInWithPassword] would do. *)
Theorem login_skips_provider env env' data store h :
  env_headers env = Normal h ->
  env_headers env' = Normal h ->
  env_now env' = env_now env ->
  env_toLocaleTimeString env' = env_toLocaleTimeString env ->
  allowed (checkRateLimit (login_key h) 5 900000 (env_now env) store).1 = false
  \/ truthy (email data) = false
  \/ truthy (password data) = false
  \/ validateEmail (sanitizeInput (email data)) = false ->
  login env' data store = login env data store.
Proof.
  intros Hh Hh' Hnow Hfmt Hcase.
  unfold login, try_catch, login_try, bind, await, on_store, ret,
    err_rate_limited.
  rewrite Hh, Hh', Hnow, Hfmt. change (15 * 60 * 1000) with 900000.
  unfold login_key in Hcase.
  destruct (checkRateLimit _ 5 900000 (env_now env) store) as [rl st1].
  simpl in Hcase.
  destruct (allowed rl); [ | reflexivity ]. simpl.
  destruct (truthy (email data)); [ | reflexivity ].
  destruct (truthy (password data)); [ | reflexivity ]. simpl.
  destruct (validateEmail (sanitizeInput (email data))); [ | reflexivity ].
  destruct Hcase as [H | [H | [H | H]]]; discriminate.
Qed.

Lemma login_skips_provider_witness :
  login (Samples.env_rejecting 1000 (js "Invalid login credentials"))
    (mkLoginData (js "not-an-address") (js "x")) ∅
  = login (Samples.env_accepting 1000)
      (mkLoginData (js "not-an-address") (js "x")) ∅.
Proof.
  apply (login_skips_provider (Samples.env_accepting 1000)
           (Samples.env_rejecting 1000 (js "Invalid login credentials"))
           (mkLoginData (js "not-an-address") (js "x")) ∅
           Samples.client_headers); try reflexivity.
  right. right. right. reflexivity.
Defined.

End LoginMore.

Module LoginReach.
Import Timing History RateLimitFacts RateLimitMore LoginFacts StringFacts LoginMore.
Local Open Scope Z_scope.

Implicit Types (env : LoginEnv) (data : LoginFormData).
Implicit Types (store : attemptStore) (h : RequestHeaders).

(** The answers of [login], case by case. *)
Lemma login_error_cases env data store :
  exists e,
    (login env data store).1 = Normal (mkActionResult e)
    /\ (e = None
        \/ (exists t, e = Some (err_rate_limited env t))
        \/ (exists m,
               e = Some m
               /\ In m [ err_required; err_invalid_email;
                         err_invalid_credentials; err_email_not_verified;
                         err_provider_rate_limited; err_authentication_failed;
                         err_unexpected ])).
Proof.
  assert (Hfixed : forall m,
             In m [ err_required; err_invalid_email;
                    err_invalid_credentials; err_email_not_verified;
                    err_provider_rate_limited; err_authentication_failed;
                    err_unexpected ] ->
             exists e,
               Normal (mkActionResult (Some m)) = Normal (mkActionResult e)
               /\ (e = None
                   \/ (exists t, e = Some (err_rate_limited env t))
                   \/ (exists m',
                          e = Some m'
                          /\ In m' [ err_required; err_invalid_email;
                                     err_invalid_credentials;
                                     err_email_not_verified;
                                     err_provider_rate_limited;
                                     err_authentication_failed;
                                     err_unexpected ]))).
  { intros m Hm. exists (Some m). split; [ reflexivity | ].
    right; right; exists m; split; [ reflexivity | exact Hm ]. }
  unfold login, try_catch, login_try, bind, await, on_store, ret.
  destruct (env_headers env) as [h | x];
    [ | apply Hfixed; simpl; tauto ].
  destruct (checkRateLimit _ 5 _ (env_now env) store) as [rl st1].
  destruct (allowed rl); simpl.
  2:{ eexists. split; [ reflexivity | ]. right; left; eexists; reflexivity. }
  destruct (truthy (email data)); simpl; [ | apply Hfixed; simpl; tauto ].
  destruct (truthy (password data)) eqn:Hpw; simpl;
    [ | apply Hfixed; simpl; tauto ].
  destruct (validateEmail (sanitizeInput (email data))); simpl;
    [ | apply Hfixed; simpl; tauto ].
  rewrite (truthy_length _ Hpw).
  destruct (env_createClient env) as [[] | x]; simpl;
    [ | apply Hfixed; simpl; tauto ].
  destruct (env_signInWithPassword env _ _) as [[e | ] | x]; simpl.
  - apply Hfixed. pose proof (login_error_message_closed e) as Hin.
    simpl in Hin. simpl. tauto.
  - exists None. split; [ reflexivity | left; reflexivity ].
  - apply Hfixed. simpl. tauto.
Qed.

(** The whole vocabulary of [login].  Every call completes normally, and
    its [error] is [null], or the rate-limit message built from a reset
    time, or one of seven fixed messages.  "Password is required" is not
    among them: the check that would return it comes after the check that
    the password is non-empty. *)
Theorem login_vocabulary env data store :
  exists e,
    (login env data store).1 = Normal (mkActionResult e)
    /\ (e = None
        \/ (exists t, e = Some (err_rate_limited env t))
        \/ (exists m,
               e = Some m
               /\ In m [ err_required; err_invalid_email;
                         err_invalid_credentials; err_email_not_verified;
                         err_provider_rate_limited; err_authentication_failed;
                         err_unexpected ]))
    /\ e <> Some err_password_required.
Proof.
  destruct (login_error_cases env data store) as (e & Hr & Hcases).
  exists e. split; [ exact Hr | ]. split; [ exact Hcases | ].
  destruct Hcases as [-> | [(t & ->) | (m & -> & Hm)]].
  - discriminate.
  - unfold err_rate_limited. simpl. discriminate.
  - intros [= ->]. simpl in Hm.
    repeat (destruct Hm as [Hm | Hm]; [ discriminate Hm | ]). exact Hm.
Qed.

(** Keys of a store have bounded length. *)
Lemma store_keys_bounded store :
  exists n, forall (key : jsstring) entry,
      store !! key = Some entry -> (length key < n)%nat.
Proof.
  induction store as [ | key0 entry0 store Hfresh _ (n & IH) ] using map_first_key_ind.
  - exists 0%nat. intros key entry H. rewrite lookup_empty in H. discriminate.
  - exists (Nat.max n (S (length key0))). intros key entry H.
    destruct (decide (key0 = key)) as [-> | Hne].
    + lia.
    + rewrite lookup_insert_ne in H by assumption.
      specialize (IH _ _ H). lia.
Qed.

Lemma replicate_clean_address (n : nat) :
  getClientIP (mkHeaders (Some (replicate (S n) 49%N)) None)
  = replicate (S n) 49%N.
Proof.
  unfold getClientIP. cbn [x_forwarded_for x_real_ip truthy_opt truthy replicate
                            default].
  change (49%N :: replicate n 49%N) with (replicate (S n) 49%N).
  assert (Hall : forall c, In c (replicate (S n) 49%N) -> c = 49%N).
  { intros c Hc. apply list_elem_of_In, elem_of_replicate in Hc. tauto. }
  rewrite split_first_id
    by (intros Hc; apply Hall in Hc; discriminate).
  apply trim_id.
  - reflexivity.
  - intros d _.
    assert (Hlast : In (List.last (replicate (S n) 49%N) d)
                       (replicate (S n) 49%N)).
    { destruct (exists_last (l := replicate (S n) 49%N)) as (l' & a & E);
        [ discriminate | ].
      rewrite E, last_last. apply in_or_app. right. left. reflexivity. }
    apply Hall in Hlast. rewrite Hlast. reflexivity.
Qed.

(** The limiter can be side-stepped by the caller.  Whatever the store
    holds, there is a value of [x-forwarded-for] under which the store has
    no entry, so that a [login] sent with it passes the limiter and is
    answered as it would be with an empty store. *)
Theorem login_rate_limit_evadable store :
  exists f : jsstring,
    let h := mkHeaders (Some f) None in
    store !! login_key h = None
    /\ forall env data,
         env_headers env = Normal h ->
         allowed (checkRateLimit (login_key h) 5 900000 (env_now env) store).1
           = true
         /\ (login env data store).1 = (login env data ∅).1.
Proof.
  destruct (store_keys_bounded store) as (n & Hn).
  exists (replicate (S n) 49%N). intros h.
  assert (Hfree : store !! login_key h = None).
  { destruct (store !! login_key h) as [entry | ] eqn:H; [ | reflexivity ].
    apply Hn in H. unfold login_key, h in H.
    rewrite replicate_clean_address, length_app, length_replicate in H. lia. }
  split; [ exact Hfree | ]. intros env data Hh. split.
  - rewrite (checkRateLimit_first _ _ _ _ _ Hfree). reflexivity.
  - apply login_local. intros h0 Hh0.
    assert (h0 = h) by congruence. subst h0.
    rewrite Hfree, lookup_empty. reflexivity.
Qed.

End LoginReach.

(* ===================================================================== *)
(** ** register, logout, resendVerificationEmail                          *)
(* ===================================================================== *)

Module RegistrationFacts.
Import Regex RegexFacts StringFacts ValidationFacts RateLimitFacts LoginFacts
  LoginMore.
Local Open Scope Z_scope.

Implicit Types (env : RegisterEnv) (data : RegisterFormData).
Implicit Types (store : attemptStore) (h : RequestHeaders).

Lemma nameRegex_chars (name : jsstring) :
  test_full nameRegex name = true
  <-> name <> [] /\ forallb isNameChar name = true.
Proof.
  unfold test_full, nameRegex. rewrite matches_Matches.
  apply Matches_Plus_Cls.
Qed.

(** The password is accepted exactly when it passes the six rules. *)
Lemma validatePassword_valid (pw : jsstring) :
  isValid (validatePassword pw) = true <->
  (8 <= length pw <= 128)%nat
  /\ existsb isLower pw = true /\ existsb isUpper pw = true
  /\ existsb isDigit pw = true /\ existsb isSpecial pw = true.
Proof.
  unfold validatePassword. rewrite !test_search_lookahead_has.
  destruct (Z.ltb_spec (Z.of_nat (length pw)) 8);
    [ simpl; split; [ discriminate | lia ] | ].
  destruct (Z.gtb_spec (Z.of_nat (length pw)) 128);
    [ simpl; split; [ discriminate | lia ] | ].
  destruct (existsb isLower pw), (existsb isUpper pw), (existsb isDigit pw),
    (existsb isSpecial pw); simpl;
    (split; [ first [ discriminate | intros _; repeat split; lia ]
            | first [ reflexivity | intros (_ & ? & ? & ? & ?); discriminate ] ]).
Qed.

(** A rejected password comes with one of the six reasons. *)
Lemma validatePassword_invalid (pw : jsstring) :
  isValid (validatePassword pw) = false ->
  exists m,
    message (validatePassword pw) = Some m
    /\ In m [ msg_too_short; msg_too_long; msg_lowercase; msg_uppercase;
              msg_number; msg_special ].
Proof.
  unfold validatePassword.
  repeat match goal with
         | |- context [ if ?b then _ else _ ] => destruct b
         end; simpl; intros H; try discriminate;
    eexists; (split; [ reflexivity | simpl; tauto ]).
Qed.

(** The store after [register] is the store after its [checkRateLimit]. *)
Lemma register_store env data store h :
  renv_headers env = Normal h ->
  (register env data store).2 =
  (checkRateLimit (register_key h) 3 3600000 (renv_now env) store).2.
Proof.
  intros Hh.
  unfold register, try_catch, register_try, bind, await, on_store, ret,
    register_key.
  rewrite Hh. change (60 * 60 * 1000) with 3600000.
  destruct (checkRateLimit _ 3 3600000 (renv_now env) store) as [rl store1].
  repeat match goal with
         | |- context [ if ?b then _ else _ ] => destruct b
         | |- context [ match ?c with Normal _ => _ | Throw _ => _ end ] =>
             destruct c
         | |- context [ match ?o with Some _ => _ | None => _ end ] =>
             destruct o
         end; reflexivity.
Qed.

Lemma register_frame env data store (key : jsstring) :
  (forall h, renv_headers env = Normal h -> register_key h <> key) ->
  (register env data store).2 !! key = store !! key.
Proof.
  intros Hkey. destruct (renv_headers env) as [h | x] eqn:Hh.
  - rewrite (register_store _ _ _ _ Hh). apply checkRateLimit_frame. auto.
  - unfold register, try_catch, register_try, bind, await. rewrite Hh.
    reflexivity.
Qed.

Lemma register_local env data store store' :
  (forall h, renv_headers env = Normal h ->
             store !! register_key h = store' !! register_key h) ->
  (register env data store).1 = (register env data store').1.
Proof.
  intros Hkey.
  unfold register, try_catch, register_try, bind, await, on_store, ret.
  destruct (renv_headers env) as [h | x]; [ | reflexivity ].
  specialize (Hkey h eq_refl). unfold register_key in Hkey.
  pose proof (checkRateLimit_local _ 3 (60 * 60 * 1000) (renv_now env) _ _ Hkey)
    as Hd.
  destruct (checkRateLimit _ 3 _ (renv_now env) store) as [rl st1].
  destruct (checkRateLimit _ 3 _ (renv_now env) store') as [rl' st1'].
  simpl in Hd. subst rl'.
  repeat match goal with
         | |- context [ if ?b then _ else _ ] => destruct b
         | |- context [ match ?c with Normal _ => _ | Throw _ => _ end ] =>
             destruct c
         | |- context [ match ?o with Some _ => _ | None => _ end ] =>
             destruct o
         end; reflexivity.
Qed.

Lemma login_register_keys h h' : login_key h <> register_key h'.
Proof. unfold login_key, register_key. simpl. discriminate. Qed.

(** Signing in and signing up have separate budgets, also for one and the
    same caller: what [login] answers does not depend on an earlier
    [register], and what [register] answers does not depend on an earlier
    [login]. *)
Theorem login_register_independent
    (lenv : LoginEnv) (ldata : LoginFormData) env data store :
  (login lenv ldata (register env data store).2).1
    = (login lenv ldata store).1
  /\ (register env data (login lenv ldata store).2).1
     = (register env data store).1.
Proof.
  split.
  - apply login_local. intros h _. apply register_frame.
    intros h' _ E. exact (login_register_keys h h' (eq_sym E)).
  - apply register_local. intros h _. apply login_frame.
    intros h' _. apply login_register_keys.
Qed.

(** When the request passes the limiter and every check on the input, the
    answer of [register] is decided by the provider; names of 2 and of 50
    characters and passwords of 8 and of 128 characters are inside the
    bounds. *)
Theorem register_reaches_provider env data store h :
  renv_headers env = Normal h ->
  allowed (checkRateLimit (register_key h) 3 3600000 (renv_now env) store).1
    = true ->
  truthy (reg_email data) = true ->
  truthy (reg_password data) = true ->
  truthy (reg_name data) = true ->
  validateEmail (sanitizeInput (reg_email data)) = true ->
  (2 <= length (sanitizeInput (reg_name data)) <= 50)%nat ->
  forallb isNameChar (sanitizeInput (reg_name data)) = true ->
  (8 <= length (reg_password data) <= 128)%nat ->
  existsb isLower (reg_password data) = true ->
  existsb isUpper (reg_password data) = true ->
  existsb isDigit (reg_password data) = true ->
  existsb isSpecial (reg_password data) = true ->
  renv_createClient env = Normal tt ->
  (register env data store).1 =
  match renv_signUp env (sanitizeInput (reg_email data)) (reg_password data)
          (sanitizeInput (reg_name data)) with
  | Normal answer =>
      match signUp_error answer with
      | Some e => Normal (reply_of_error (register_error_message e))
      | None =>
          match signUp_user (signUp_data answer),
                signUp_session (signUp_data answer) with
          | Some _, None => Normal (mkReply None (Some rmsg_verify) true)
          | _, _ => Normal (mkReply None None false)
          end
      end
  | Throw _ => Normal (reply_of_error err_unexpected)
  end.
Proof.
  intros Hh Hallowed Hemail Hpassword Hname Hvalid Hlen Hchars
    Hplen Hlow Hup Hdig Hspec Hclient.
  assert (Hpw : isValid (validatePassword (reg_password data)) = true)
    by (apply validatePassword_valid; auto).
  assert (Hre : test_full nameRegex (sanitizeInput (reg_name data)) = true).
  { apply nameRegex_chars. split; [ | assumption ].
    intros E. rewrite E in Hlen. simpl in Hlen. lia. }
  unfold register, try_catch, register_try, bind, await, on_store, ret.
  unfold register_key in Hallowed.
  rewrite Hh. change (60 * 60 * 1000) with 3600000.
  destruct (checkRateLimit _ 3 3600000 (renv_now env) store) as [rl store1].
  simpl in Hallowed. rewrite Hallowed, Hemail, Hpassword, Hname, Hvalid.
  cbn [negb orb].
  destruct (Z.ltb_spec (Z.of_nat (length (sanitizeInput (reg_name data)))) 2);
    [ lia | ].
  destruct (Z.gtb_spec (Z.of_nat (length (sanitizeInput (reg_name data)))) 50);
    [ lia | ].
  rewrite Hre, Hpw, Hclient. cbn [negb].
  destruct (renv_signUp env _ _ _) as [answer | x]; [ | reflexivity ].
  destruct (signUp_error answer); [ reflexivity | ].
  destruct (signUp_user (signUp_data answer)),
    (signUp_session (signUp_data answer)); reflexivity.
Qed.

Lemma register_reaches_provider_witness :
  (register (RegistrationSamples.env_verifying 1000) RegistrationSamples.form
     ∅).1
  = Normal (mkReply None (Some rmsg_verify) true).
Proof.
  refine (register_reaches_provider (RegistrationSamples.env_verifying 1000)
            RegistrationSamples.form ∅
            (mkHeaders (Some (js "203.0.113.7")) None)
            _ _ _ _ _ _ _ _ _ _ _ _ _ _);
    try reflexivity; vm_compute; lia.
Defined.

(** A registration that succeeds was validated.  If [register] returns
    [error = null], then the limiter allowed the call, the sanitised email
    has the accepted shape, the sanitised name has 2 to 50 characters, all
    letters, white space, hyphens or apostrophes, the password passes the
    six rules, and the provider was asked with exactly these values and
    reported no error; [requiresVerification] is set exactly when the
    provider created a user without a session. *)
Theorem register_success_validated env data store r :
  (register env data store).1 = Normal r ->
  reply_error r = None ->
  let email := sanitizeInput (reg_email data) in
  let name := sanitizeInput (reg_name data) in
  let pw := reg_password data in
  exists h answer,
    renv_headers env = Normal h
    /\ allowed (checkRateLimit (register_key h) 3 3600000 (renv_now env)
                  store).1 = true
    /\ validateEmail email = true
    /\ (2 <= length name <= 50)%nat /\ forallb isNameChar name = true
    /\ ((8 <= length pw <= 128)%nat
        /\ existsb isLower pw = true /\ existsb isUpper pw = true
        /\ existsb isDigit pw = true /\ existsb isSpecial pw = true)
    /\ renv_signUp env email pw name = Normal answer
    /\ signUp_error answer = None
    /\ (requiresVerification r = true <->
        signUp_user (signUp_data answer) <> None
        /\ signUp_session (signUp_data answer) = None).
Proof.
  intros Hr Herr email name pw. subst email name pw.
  unfold register, try_catch, register_try, bind, await, on_store, ret,
    reply_of_error in Hr.
  change (60 * 60 * 1000) with 3600000 in Hr.
  destruct (renv_headers env) as [h | x] eqn:Hh;
    [ | injection Hr as <-; discriminate ].
  destruct (checkRateLimit (js "register:" ++ getClientIP h) 3 3600000
              (renv_now env) store) as [rl st1] eqn:Hrl.
  destruct (allowed rl) eqn:Hallowed;
    [ | injection Hr as <-; discriminate ].
  destruct (truthy (reg_email data)), (truthy (reg_password data)),
    (truthy (reg_name data));
    try (injection Hr as <-; discriminate).
  cbn [negb orb] in Hr.
  destruct (validateEmail (sanitizeInput (reg_email data))) eqn:Hvalid;
    [ | injection Hr as <-; discriminate ].
  cbn [negb] in Hr.
  destruct (Z.ltb_spec (Z.of_nat (length (sanitizeInput (reg_name data)))) 2);
    [ injection Hr as <-; discriminate | ].
  destruct (Z.gtb_spec (Z.of_nat (length (sanitizeInput (reg_name data)))) 50);
    [ injection Hr as <-; discriminate | ].
  destruct (test_full nameRegex (sanitizeInput (reg_name data))) eqn:Hre;
    [ | injection Hr as <-; discriminate ].
  cbn [negb] in Hr.
  destruct (isValid (validatePassword (reg_password data))) eqn:Hpw.
  2:{ injection Hr as <-. simpl in Herr.
      destruct (validatePassword_invalid _ Hpw) as (m & Hm & _). congruence. }
  cbn [negb] in Hr.
  destruct (renv_createClient env) as [[] | x];
    [ | injection Hr as <-; discriminate ].
  destruct (renv_signUp env _ _ _) as [answer | x] eqn:Hsign;
    [ | injection Hr as <-; discriminate ].
  destruct (signUp_error answer) eqn:Herror;
    [ injection Hr as <-; discriminate | ].
  apply nameRegex_chars in Hre as [_ Hchars].
  apply validatePassword_valid in Hpw.
  exists h, answer.
  split; [ reflexivity | ].
  split; [ unfold register_key; rewrite Hrl; exact Hallowed | ].
  split; [ first [ reflexivity | assumption ] | ].
  split; [ lia | ]. split; [ assumption | ]. split; [ assumption | ].
  split; [ first [ reflexivity | assumption ] | ].
  split; [ first [ reflexivity | assumption ] | ].
  destruct (signUp_user (signUp_data answer)),
    (signUp_session (signUp_data answer));
    injection Hr as <-; simpl; split;
      first [ discriminate | intros [? ?]; congruence
            | intros _; split; [ discriminate | reflexivity ] ].
Qed.

Lemma register_success_validated_witness :
  exists h answer,
    renv_headers (RegistrationSamples.env_verifying 1000) = Normal h
    /\ renv_signUp (RegistrationSamples.env_verifying 1000)
         (sanitizeInput (reg_email RegistrationSamples.form))
         (reg_password RegistrationSamples.form)
         (sanitizeInput (reg_name RegistrationSamples.form)) = Normal answer
    /\ signUp_error answer = None.
Proof.
  assert (Hr : (register (RegistrationSamples.env_verifying 1000)
                  RegistrationSamples.form ∅).1
               = Normal (mkReply None (Some rmsg_verify) true))
    by (vm_compute; reflexivity).
  destruct (register_success_validated
              (RegistrationSamples.env_verifying 1000)
              RegistrationSamples.form ∅ _ Hr eq_refl)
    as (h & answer & Hh & _ & _ & _ & _ & _ & Hsign & Herror & _).
  exists h, answer. repeat split; assumption.
Defined.

(** The whole vocabulary of [register]: every call completes normally, and
    its [error] is [null], or the rate-limit message built from a reset
    time, or one of sixteen fixed messages; the text of the provider is
    never among them. *)
Theorem register_vocabulary env data store :
  exists r,
    (register env data store).1 = Normal r
    /\ (reply_error r = None
        \/ (exists t, reply_error r = Some (rerr_rate_limited env t))
        \/ (exists m,
               reply_error r = Some m
               /\ In m [ rerr_required; err_invalid_email; rerr_name_short;
                         rerr_name_long; rerr_name_chars; msg_too_short;
                         msg_too_long; msg_lowercase; msg_uppercase;
                         msg_number; msg_special; rerr_exists;
                         rerr_weak_password; rerr_signup_disabled;
                         rerr_failed; err_unexpected ])).
Proof.
  assert (Hfixed : forall m,
             In m [ rerr_required; err_invalid_email; rerr_name_short;
                    rerr_name_long; rerr_name_chars; msg_too_short;
                    msg_too_long; msg_lowercase; msg_uppercase;
                    msg_number; msg_special; rerr_exists;
                    rerr_weak_password; rerr_signup_disabled;
                    rerr_failed; err_unexpected ] ->
             exists r,
               Normal (reply_of_error m) = Normal r
               /\ (reply_error r = None
                   \/ (exists t, reply_error r = Some (rerr_rate_limited env t))
                   \/ (exists m',
                          reply_error r = Some m'
                          /\ In m' [ rerr_required; err_invalid_email;
                                     rerr_name_short; rerr_name_long;
                                     rerr_name_chars; msg_too_short;
                                     msg_too_long; msg_lowercase;
                                     msg_uppercase; msg_number; msg_special;
                                     rerr_exists; rerr_weak_password;
                                     rerr_signup_disabled; rerr_failed;
                                     err_unexpected ]))).
  { intros m Hm. eexists. split; [ reflexivity | ].
    right. right. exists m. split; [ reflexivity | exact Hm ]. }
  unfold register, try_catch, register_try, bind, await, on_store, ret.
  destruct (renv_headers env) as [h | x];
    [ | apply Hfixed; simpl; tauto ].
  destruct (checkRateLimit _ 3 _ (renv_now env) store) as [rl st1].
  destruct (allowed rl); cbn [negb].
  2:{ eexists. split; [ reflexivity | ]. right. left. eexists. reflexivity. }
  destruct (negb (truthy (reg_email data)) || negb (truthy (reg_password data))
            || negb (truthy (reg_name data)));
    [ apply Hfixed; simpl; tauto | ].
  destruct (validateEmail _); cbn [negb]; [ | apply Hfixed; simpl; tauto ].
  destruct (_ <? 2); [ apply Hfixed; simpl; tauto | ].
  destruct (_ >? 50); [ apply Hfixed; simpl; tauto | ].
  destruct (test_full nameRegex _); cbn [negb];
    [ | apply Hfixed; simpl; tauto ].
  destruct (isValid (validatePassword (reg_password data))) eqn:Hpw;
    cbn [negb].
  2:{ destruct (validatePassword_invalid _ Hpw) as (m & Hm & Hin).
      rewrite Hm. apply (Hfixed m). simpl in Hin. simpl. tauto. }
  destruct (renv_createClient env) as [[] | x];
    [ | apply Hfixed; simpl; tauto ].
  destruct (renv_signUp env _ _ _) as [answer | x];
    [ | apply Hfixed; simpl; tauto ].
  destruct (signUp_error answer) as [e | ].
  - apply Hfixed. unfold register_error_message.
    repeat match goal with
           | |- context [ if ?b then _ else _ ] => destruct b
           end; simpl; tauto.
  - destruct (signUp_user (signUp_data answer)),
      (signUp_session (signUp_data answer));
      eexists; (split; [ reflexivity | left; reflexivity ]).
Qed.

(** *** logout and resendVerificationEmail *)

(** [logout] completes normally with [error = null] or one of two fixed
    messages, and [error] is [null] exactly when the client could be
    created and the provider signed the user out without an error. *)
Theorem logout_outcomes (env : LogoutEnv) :
  exists e,
    logout env = Normal (mkActionResult e)
    /\ In e [ None; Some lerr_failed; Some lerr_unexpected ]
    /\ (e = None <->
        lenv_createClient env = Normal tt /\ lenv_signOut env = Normal None).
Proof.
  unfold logout, ctry, cbind.
  destruct (lenv_createClient env) as [[] | x].
  - destruct (lenv_signOut env) as [[e | ] | x]; eexists;
      (split; [ reflexivity | ]); (split; [ simpl; tauto | ]);
      split; try discriminate; try (intros [_ H]; discriminate H); auto.
  - eexists. split; [ reflexivity | ]. split; [ simpl; tauto | ].
    split; [ discriminate | intros [H _]; discriminate H ].
Qed.

(** [resendVerificationEmail] completes normally with [error = null] or one
    of five fixed messages.  It reports success exactly when the address
    is non-empty, its sanitised form has the accepted shape, the client
    could be created and the provider, asked with the sanitised address,
    reported no error; the success carries the confirmation message. *)
Theorem resendVerificationEmail_outcomes (env : ResendEnv) (address : jsstring) :
  exists r,
    resendVerificationEmail env address = Normal r
    /\ In (reply_error r)
          [ None; Some verr_required; Some err_invalid_email;
            Some verr_too_many; Some verr_failed; Some err_unexpected ]
    /\ (reply_error r = None <->
        truthy address = true
        /\ validateEmail (sanitizeInput address) = true
        /\ venv_createClient env = Normal tt
        /\ venv_resend env (sanitizeInput address) = Normal None)
    /\ (reply_error r = None -> reply_message r = Some vmsg_sent).
Proof.
  unfold resendVerificationEmail, ctry, cbind, reply_of_error.
  destruct (truthy address); cbn [negb].
  2:{ eexists. split; [ reflexivity | ]. split; [ simpl; tauto | ].
      split; [ | discriminate ].
      split; [ discriminate | intros (H & _); discriminate H ]. }
  destruct (validateEmail (sanitizeInput address)); cbn [negb].
  2:{ eexists. split; [ reflexivity | ]. split; [ simpl; tauto | ].
      split; [ | discriminate ].
      split; [ discriminate | intros (_ & H & _); discriminate H ]. }
  destruct (venv_createClient env) as [[] | x].
  2:{ eexists. split; [ reflexivity | ]. split; [ simpl; tauto | ].
      split; [ | discriminate ].
      split; [ discriminate | intros (_ & _ & H & _); discriminate H ]. }
  destruct (venv_resend env (sanitizeInput address)) as [[e | ] | x].
  - destruct (includes _ (error_message e)); eexists;
      (split; [ reflexivity | ]); (split; [ simpl; tauto | ]);
      (split; [ | discriminate ]);
      (split; [ discriminate | intros (_ & _ & _ & H); discriminate H ]).
  - eexists. split; [ reflexivity | ]. split; [ simpl; tauto | ].
    split; [ | reflexivity ]. split; auto.
  - eexists. split; [ reflexivity | ]. split; [ simpl; tauto | ].
    split; [ | discriminate ].
    split; [ discriminate | intros (_ & _ & _ & H); discriminate H ].
Qed.

End RegistrationFacts.

(* ===================================================================== *)
(** ** More about updateSession                                           *)
(* ===================================================================== *)

Module MiddlewareMore.
Import Regex RegexFacts StringFacts MiddlewareFacts.

Implicit Types (request : NextRequest) (auth : GetUserOutcome).
Implicit Types (r : NextResponse) (ps : list (jsstring * jsstring)).
Implicit Types (path : jsstring).

(** *** The response that is let through *)

(** Every answer that lets the request continue carries the four security
    headers with their values, whatever cookies the session refresh set;
    header names are matched without regard to case. *)
Theorem updateSession_pass_through_headers request auth :
  kind (updateSession request auth) = Next ->
  let response := updateSession request auth in
  headers_get (js "X-Frame-Options") response = Some (js "DENY")
  /\ headers_get (js "X-Content-Type-Options") response = Some (js "nosniff")
  /\ headers_get (js "Referrer-Policy") response
     = Some (js "strict-origin-when-cross-origin")
  /\ headers_get (js "X-XSS-Protection") response = Some (js "1; mode=block")
  /\ headers_get (js "x-frame-options") response = Some (js "DENY").
Proof.
  intros Hk response. subst response. revert Hk. unfold updateSession.
  set (resp := match cookiesToSet auth with
               | Some cs => _ | None => _ end).
  assert (Hall : has_security_headers
            (headers_set (js "X-XSS-Protection") (js "1; mode=block")
               (headers_set (js "Referrer-Policy")
                  (js "strict-origin-when-cross-origin")
                  (headers_set (js "X-Content-Type-Options") (js "nosniff")
                     (headers_set (js "X-Frame-Options") (js "DENY") resp)))))
    by apply security_headers_set.
  unfold has_security_headers, securityHeaders in Hall.
  inversion Hall as [ | ? ? H1 Hall1 ]; subst.
  inversion Hall1 as [ | ? ? H2 Hall2 ]; subst.
  inversion Hall2 as [ | ? ? H3 Hall3 ]; subst.
  inversion Hall3 as [ | ? ? H4 _ ]; subst.
  cbn [fst snd] in *.
  destruct (isPublicPath _ || isStaticFile _);
    [ | destruct (user auth); [ | discriminate ] ];
    intros _; repeat split; assumption.
Qed.

Lemma updateSession_pass_through_headers_witness :
  headers_get (js "X-Frame-Options")
    (updateSession (Samples.request_to (js "/polls")) Samples.signed_in)
  = Some (js "DENY").
Proof.
  refine (proj1 (updateSession_pass_through_headers
                   (Samples.request_to (js "/polls")) Samples.signed_in _)).
  vm_compute. reflexivity.
Defined.

(** *** The redirection *)

Lemma searchParams_delete_none (name : jsstring) ps :
  List.filter (fun kv => jsstring_eqb (fst kv) name)
    (searchParams_delete name ps) = [].
Proof.
  unfold searchParams_delete.
  induction ps as [ | [k v] ps IH ]; simpl; [ reflexivity | ].
  destruct (jsstring_eqb k name) eqn:E; simpl; [ exact IH | ].
  rewrite E. exact IH.
Qed.

(** After [set] there is exactly one pair of that name. *)
Lemma searchParams_set_once (name value : jsstring) ps :
  List.filter (fun kv => jsstring_eqb (fst kv) name)
    (searchParams_set name value ps) = [(name, value)].
Proof.
  induction ps as [ | [k v] ps IH ]; simpl.
  - by rewrite jsstring_eqb_refl.
  - destruct (jsstring_eqb k name) eqn:E; simpl; rewrite E.
    + rewrite searchParams_delete_none.
      unfold jsstring_eqb in E. apply bool_decide_eq_true in E. by subst.
    + exact IH.
Qed.

(** The redirection to the login page keeps the origin and every other
    query parameter of the request, holds exactly one [redirect]
    parameter, whose value is the path of the request without its query
    string, and carries none of the cookies of the session refresh. *)
Theorem updateSession_redirect_shape request auth :
  isPublicPath (pathname (nextUrl request))
    || isStaticFile (pathname (nextUrl request)) = false ->
  user auth = None ->
  exists url,
    updateSession request auth = mkResponse (Redirect url) ∅ []
    /\ origin url = origin (nextUrl request)
    /\ pathname url = js "/login"
    /\ List.filter (fun kv => jsstring_eqb (fst kv) (js "redirect"))
         (searchParams url)
       = [(js "redirect", pathname (nextUrl request))]
    /\ forall name,
         name <> js "redirect" ->
         searchParams_get name (searchParams url)
         = searchParams_get name (searchParams (nextUrl request)).
Proof.
  intros Hpath Huser. unfold updateSession. rewrite Hpath, Huser.
  eexists. split; [ reflexivity | ]. cbn [origin pathname searchParams].
  split; [ reflexivity | ]. split; [ reflexivity | ].
  split; [ apply searchParams_set_once | ].
  intros name Hne. apply searchParams_get_set_other. congruence.
Qed.

Lemma updateSession_redirect_shape_witness :
  exists url,
    updateSession
      (mkRequest (mkURL (js "http://localhost:3000") (js "/polls/42")
                    [ (js "tab", js "votes"); (js "redirect", js "/evil") ])
         [])
      (mkGetUser None (Some [ mkCookie (js "sb-token") [] (js "Max-Age=0") ]))
    = mkResponse (Redirect url) ∅ []
    /\ searchParams url
       = [ (js "tab", js "votes"); (js "redirect", js "/polls/42") ].
Proof.
  destruct (updateSession_redirect_shape
              (mkRequest (mkURL (js "http://localhost:3000") (js "/polls/42")
                            [ (js "tab", js "votes");
                              (js "redirect", js "/evil") ])
                 [])
              (mkGetUser None
                 (Some [ mkCookie (js "sb-token") [] (js "Max-Age=0") ])))
    as (url & Hr & _); [ vm_compute; reflexivity | reflexivity | ].
  exists url. split; [ exact Hr | ].
  vm_compute in Hr. injection Hr as <-. vm_compute. reflexivity.
Defined.

(** *** Which paths are let through *)

Lemma isPublicPath_prefix path :
  isPublicPath path = true <->
  exists p rest, In p publicPaths /\ path = p ++ rest.
Proof.
  unfold isPublicPath. rewrite existsb_exists. split.
  - intros (p & Hin & (rest & ->)%startsWith_app). eauto.
  - intros (p & rest & Hin & ->). exists p. split; [ assumption | ].
    apply startsWith_app. eauto.
Qed.

(** The public paths are matched as prefixes: whatever follows a public
    path is public too, so such a request is let through whoever the
    caller is (["/authors/drafts"] starts with ["/auth"]). *)
Theorem updateSession_public_prefix path (rest : jsstring) (o : jsstring)
    ps (cs : list (jsstring * jsstring)) auth :
  isPublicPath path = true ->
  kind (updateSession (mkRequest (mkURL o (path ++ rest) ps) cs) auth) = Next.
Proof.
  intros Hp.
  assert (Hpub : isPublicPath (path ++ rest) = true).
  { apply isPublicPath_prefix in Hp as (p & t & Hin & ->).
    apply isPublicPath_prefix. exists p, (t ++ rest).
    split; [ assumption | by rewrite app_assoc ]. }
  unfold updateSession. cbn [nextUrl pathname]. rewrite Hpub. cbn [orb].
  rewrite !kind_headers_set.
  destruct (cookiesToSet auth); [ apply kind_cookies_fold | reflexivity ].
Qed.

Lemma updateSession_public_prefix_witness :
  kind (updateSession (Samples.request_to (js "/authors/drafts"))
          Samples.anonymous) = Next.
Proof.
  apply (updateSession_public_prefix (js "/auth") (js "ors/drafts")
           (js "http://localhost:3000") [] [] Samples.anonymous).
  reflexivity.
Defined.

Lemma canonicalize_dot (d : N) : canonicalize 46 = canonicalize d -> d = 46%N.
Proof.
  unfold canonicalize. simpl.
  destruct ((97 <=? d) && (d <=? 122))%N eqn:E; [ | congruence ].
  apply andb_true_iff in E as [E1 E2].
  apply N.leb_le in E1, E2. lia.
Qed.

(** The static-file test looks at the end of the path only: a path is a
    static file exactly when it ends with a dot and one of the nine
    extensions, in any mix of upper and lower case. *)
Lemma isStaticFile_suffix path :
  isStaticFile path = true <->
  exists stem ext e,
    path = stem ++ js "." ++ ext
    /\ In e [ js "svg"; js "png"; js "jpg"; js "jpeg"; js "gif";
              js "webp"; js "ico"; js "css"; js "js" ]
    /\ map canonicalize ext = map canonicalize e.
Proof.
  unfold isStaticFile, staticFileRegex. rewrite test_suffix_Matches.
  change (js ".") with [46%N]. split.
  - intros (stem & s1 & -> & H).
    apply Matches_Cat_inv in H as (d & ext & -> & Hd & Hext).
    apply Matches_Cls_inv in Hd as (c & -> & Hc).
    apply code_eqb_eq, canonicalize_dot in Hc. subst c.
    apply Matches_AltOf in Hext as (r & Hin & Hr).
    apply in_map_iff in Hin as (e & <- & Hin).
    apply Matches_Lit_i in Hr. exists stem, ext, e. auto.
  - intros (stem & ext & e & -> & Hin & Hext).
    exists stem, ([46%N] ++ ext). split; [ reflexivity | ].
    apply MCat.
    + constructor. apply code_eqb_eq. reflexivity.
    + apply Matches_AltOf. exists (Lit_i e).
      split; [ apply in_map; exact Hin | apply Matches_Lit_i; exact Hext ].
Qed.

(** A path that ends with a dot and one of the nine extensions, in any
    case, is let through without a principal, whatever comes before the
    dot. *)
Theorem updateSession_static_suffix (stem ext e : jsstring) (o : jsstring)
    ps (cs : list (jsstring * jsstring)) auth :
  In e [ js "svg"; js "png"; js "jpg"; js "jpeg"; js "gif";
         js "webp"; js "ico"; js "css"; js "js" ] ->
  map canonicalize ext = map canonicalize e ->
  kind (updateSession
          (mkRequest (mkURL o (stem ++ js "." ++ ext) ps) cs) auth) = Next.
Proof.
  intros Hin Hext.
  assert (Hstatic : isStaticFile (stem ++ js "." ++ ext) = true)
    by (apply isStaticFile_suffix; eauto 6).
  unfold updateSession. cbn [nextUrl pathname]. rewrite Hstatic, orb_true_r.
  rewrite !kind_headers_set.
  destruct (cookiesToSet auth); [ apply kind_cookies_fold | reflexivity ].
Qed.

Lemma updateSession_static_suffix_witness :
  kind (updateSession (Samples.request_to (js "/polls/42/edit.JS"))
          Samples.anonymous) = Next.
Proof.
  apply (updateSession_static_suffix (js "/polls/42/edit") (js "JS") (js "js")
           (js "http://localhost:3000") [] [] Samples.anonymous).
  - simpl. tauto.
  - reflexivity.
Defined.

End MiddlewareMore.

(* ===================================================================== *)
(** ** The login page                                                     *)
(* ===================================================================== *)

Module LoginPageFacts.
Import LoginFacts LoginReach MiddlewareFacts.

Implicit Types (env : LoginEnv) (store : attemptStore) (location : URL).

(** The round trip through the login page.  A request for a protected path
    without a principal is redirected to the login page; when a [login]
    submitted from the page the redirection leads to returns
    [error = null], the page sends the browser to the path of the original
    request. *)
Theorem handleSubmit_returns_to_requested_path
    (request : NextRequest) (auth : GetUserOutcome)
    env (emailValue password : jsstring) store :
  isPublicPath (pathname (nextUrl request))
    || isStaticFile (pathname (nextUrl request)) = false ->
  user auth = None ->
  pathname (nextUrl request) <> [] ->
  (login env (mkLoginData emailValue password) store).1
    = Normal (mkActionResult None) ->
  exists location outcome,
    kind (updateSession request auth) = Redirect location
    /\ (handleSubmit env emailValue password location store).1
       = Normal outcome
    /\ navigated_to outcome = Some (pathname (nextUrl request)).
Proof.
  intros Hpath Huser Hne Hlogin.
  unfold updateSession. rewrite Hpath, Huser. cbn [kind NextResponse_redirect].
  eexists. eexists. split; [ reflexivity | ].
  unfold handleSubmit.
  destruct (login env (mkLoginData emailValue password) store)
    as [c store'].
  simpl in Hlogin. subst c. cbn [fst]. split; [ reflexivity | ].
  unfold handleSubmit_after. cbn [error searchParams navigated_to].
  rewrite searchParams_get_set. cbn [truthy_opt default].
  destruct (pathname (nextUrl request)); [ congruence | reflexivity ].
Qed.

Lemma handleSubmit_returns_to_requested_path_witness :
  exists location outcome,
    kind (updateSession (Samples.request_to (js "/polls/42"))
            Samples.anonymous) = Redirect location
    /\ (handleSubmit (Samples.env_accepting 1000) (js "user@example.com")
          (js "Valid1Pass!") location ∅).1 = Normal outcome
    /\ navigated_to outcome = Some (js "/polls/42").
Proof.
  apply (handleSubmit_returns_to_requested_path
           (Samples.request_to (js "/polls/42")) Samples.anonymous
           (Samples.env_accepting 1000) (js "user@example.com")
           (js "Valid1Pass!") ∅).
  - vm_compute. reflexivity.
  - reflexivity.
  - discriminate.
  - vm_compute. reflexivity.
Defined.

Lemma handleSubmit_after_error (emailValue : jsstring) location (m : jsstring) :
  truthy m = true ->
  handleSubmit_after emailValue location (mkActionResult (Some m))
  = mkPageOutcome (Some m) false (includes (js "verify your email") m)
      emailValue None.
Proof. intros H. unfold handleSubmit_after. cbn [error]. by rewrite H. Qed.

(** What the page does with the answer of [login].  It leaves the login
    page exactly when [login] returned [error = null].  It offers to resend
    the verification email whenever [login] reported an unverified
    address, and otherwise only if the message is the rate-limit message
    (whose time text is not under the control of the page). *)
Theorem handleSubmit_outcomes env (emailValue password : jsstring)
    location store :
  exists e outcome,
    (login env (mkLoginData emailValue password) store).1
      = Normal (mkActionResult e)
    /\ (handleSubmit env emailValue password location store).1
       = Normal outcome
    /\ (navigated_to outcome <> None <-> e = None)
    /\ (e <> None -> page_error outcome = e /\ page_loading outcome = false)
    /\ (e = Some err_email_not_verified ->
        showResendVerification outcome = true)
    /\ (showResendVerification outcome = true ->
        e = Some err_email_not_verified
        \/ exists t, e = Some (err_rate_limited env t)).
Proof.
  destruct (login_error_cases env (mkLoginData emailValue password) store)
    as (e & Hr & Hcases).
  unfold handleSubmit.
  destruct (login env (mkLoginData emailValue password) store)
    as [c store'].
  simpl in Hr. subst c. exists e. eexists.
  split; [ reflexivity | ]. split; [ reflexivity | ].
  destruct Hcases as [-> | [(t & ->) | (m & -> & Hm)]].
  - cbn. split; [ split; [ reflexivity | discriminate ] | ].
    split; [ intros H; contradiction H; reflexivity | ].
    split; discriminate.
  - rewrite handleSubmit_after_error
      by (unfold err_rate_limited; reflexivity).
    cbn [navigated_to page_error page_loading showResendVerification].
    split; [ split; [ intros H; contradiction H; reflexivity | discriminate ] | ].
    split; [ intros _; split; reflexivity | ].
    split; [ unfold err_rate_limited; simpl; discriminate | ].
    intros _. right. exists t. reflexivity.
  - assert (Htruthy : truthy m = true).
    { simpl in Hm.
      repeat (destruct Hm as [<- | Hm]; [ reflexivity | ]). contradiction. }
    rewrite (handleSubmit_after_error _ _ _ Htruthy).
    cbn [navigated_to page_error page_loading showResendVerification].
    split; [ split; [ intros H; contradiction H; reflexivity | discriminate ] | ].
    split; [ intros _; split; reflexivity | ].
    split; [ intros [= ->]; reflexivity | ].
    simpl in Hm.
    repeat (destruct Hm as [<- | Hm];
            [ first [ left; reflexivity | vm_compute; discriminate ] | ]).
    contradiction.
Qed.

End LoginPageFacts.

(* ===================================================================== *)
(** ** createPoll and updatePoll                                          *)
(* ===================================================================== *)

Module PollFacts.
Local Open Scope Z_scope.

Implicit Types (env : PollEnv) (formData : PollForm).

Lemma filter_truthy_nonempty (options : list jsstring) (o : jsstring) :
  In o (List.filter truthy options) -> o <> [].
Proof. intros [_ H]%filter_In ->. discriminate. Qed.

(** [createPoll] writes only what it has validated.  Starting from an
    empty record of effects, the only write it can make is one insert, and
    that insert is made for a resolved user, with the user's id, the
    non-empty question of the form and its non-empty options, at least two
    of them.  It returns [error = null] only after that insert was
    accepted, and then it has asked to revalidate ["/polls"]. *)
Theorem createPoll_writes_validated env formData :
  let result := (createPoll env formData []).1 in
  let log := (createPoll env formData []).2 in
  (forall e, In e log ->
     exists u q,
       penv_getUser env = Normal (mkGetUserAnswer (Some u) None)
       /\ form_question formData = Some q /\ q <> []
       /\ (2 <= length (List.filter truthy (form_options formData)))%nat
       /\ (forall o, In o (List.filter truthy (form_options formData)) ->
                     o <> [])
       /\ (e = InsertPoll (mkPollRow (user_id u) q
                             (List.filter truthy (form_options formData)))
           \/ e = RevalidatePath (js "/polls")))
  /\ (result = Normal (mkActionResult None) ->
      exists row,
        log = [ InsertPoll row; RevalidatePath (js "/polls") ]
        /\ penv_write env (InsertPoll row) = Normal None).
Proof.
  intros result log. subst result log.
  unfold createPoll, io_bind, io_await, io_ret, io_write, io_revalidate.
  destruct (penv_createClient env) as [[] | x];
    [ | split; [ intros e [] | discriminate ] ].
  destruct (form_question formData) as [q | ] eqn:Hq; cbn [truthy_opt].
  2:{ cbn. split; [ intros e [] | discriminate ]. }
  destruct (truthy q) eqn:Htq; cbn [negb orb];
    [ | cbn; split; [ intros e [] | discriminate ] ].
  destruct (Z.ltb_spec
              (Z.of_nat (length (List.filter truthy (form_options formData))))
              2) as [ | Hlen ];
    [ cbn; split; [ intros e [] | discriminate ] | ].
  destruct (penv_getUser env) as [[u err] | x] eqn:Hu;
    [ | cbn; split; [ intros e [] | discriminate ] ].
  cbn [answer_error answer_user].
  destruct err as [err | ]; [ cbn; split; [ intros e [] | discriminate ] | ].
  destruct u as [u | ]; [ | cbn; split; [ intros e [] | discriminate ] ].
  assert (Hfacts : forall e,
             e = InsertPoll (mkPollRow (user_id u) q
                               (List.filter truthy (form_options formData)))
             \/ e = RevalidatePath (js "/polls") ->
             exists u0 q0,
               Normal (mkGetUserAnswer (Some u) None)
                 = Normal (mkGetUserAnswer (Some u0) None)
               /\ Some q = Some q0 /\ q0 <> []
               /\ (2 <= length (List.filter truthy (form_options formData)))%nat
               /\ (forall o,
                      In o (List.filter truthy (form_options formData)) ->
                      o <> [])
               /\ (e = InsertPoll (mkPollRow (user_id u0) q0
                                     (List.filter truthy
                                        (form_options formData)))
                   \/ e = RevalidatePath (js "/polls"))).
  { intros e He. exists u, q.
    split; [ reflexivity | ]. split; [ reflexivity | ].
    split; [ intros ->; discriminate | ]. split; [ lia | ].
    split; [ apply filter_truthy_nonempty | exact He ]. }
  cbn [default app].
  destruct (penv_write env _) as [[e' | ] | x] eqn:Hw; cbn.
  - split; [ | discriminate ].
    intros e [<- | []]. apply Hfacts. left. reflexivity.
  - split.
    + intros e [<- | [<- | []]]; apply Hfacts; [ left | right ]; reflexivity.
    + intros _. eexists. split; [ reflexivity | exact Hw ].
  - split; [ | discriminate ].
    intros e [<- | []]. apply Hfacts. left. reflexivity.
Qed.

(** [updatePoll] writes only what it has validated and only to the
    caller's own poll.  The only effect it can ask for is one update, made
    for a resolved user, restricted both to the given poll id and to the
    user's id, with the non-empty question of the form and its non-empty
    options, at least two of them. *)
Theorem updatePoll_writes_own_poll env (pollId : jsstring) formData :
  forall e, In e (updatePoll env pollId formData []).2 ->
    exists u q,
      penv_getUser env = Normal (mkGetUserAnswer (Some u) None)
      /\ form_question formData = Some q /\ q <> []
      /\ (2 <= length (List.filter truthy (form_options formData)))%nat
      /\ (forall o, In o (List.filter truthy (form_options formData)) ->
                    o <> [])
      /\ e = UpdatePoll q (List.filter truthy (form_options formData))
               pollId (user_id u).
Proof.
  unfold updatePoll, io_bind, io_await, io_ret, io_write.
  destruct (penv_createClient env) as [[] | x]; [ | intros e [] ].
  destruct (form_question formData) as [q | ] eqn:Hq; cbn [truthy_opt];
    [ | cbn; intros e [] ].
  destruct (truthy q) eqn:Htq; cbn [negb orb]; [ | cbn; intros e [] ].
  destruct (Z.ltb_spec
              (Z.of_nat (length (List.filter truthy (form_options formData))))
              2) as [ | Hlen ];
    [ cbn; intros e [] | ].
  destruct (penv_getUser env) as [[u err] | x] eqn:Hu;
    [ | cbn; intros e [] ].
  cbn [answer_error answer_user].
  destruct err as [err | ]; [ cbn; intros e [] | ].
  destruct u as [u | ]; [ | cbn; intros e [] ].
  cbn [default app].
  assert (Hin : forall e,
             In e [ UpdatePoll q (List.filter truthy (form_options formData))
                      pollId (user_id u) ] ->
             exists u0 q0,
               Normal (mkGetUserAnswer (Some u) None)
                 = Normal (mkGetUserAnswer (Some u0) None)
               /\ Some q = Some q0 /\ q0 <> []
               /\ (2 <= length (List.filter truthy (form_options formData)))%nat
               /\ (forall o,
                      In o (List.filter truthy (form_options formData)) ->
                      o <> [])
               /\ e = UpdatePoll q0
                        (List.filter truthy (form_options formData))
                        pollId (user_id u0)).
  { intros e [<- | []]. exists u, q.
    split; [ reflexivity | ]. split; [ reflexivity | ].
    split; [ intros ->; discriminate | ]. split; [ lia | ].
    split; [ apply filter_truthy_nonempty | reflexivity ]. }
  destruct (penv_write env _) as [[e' | ] | x]; cbn; exact Hin.
Qed.

Lemma updatePoll_writes_own_poll_witness :
  exists u q,
    penv_getUser PollSamples.env_signed_in
      = Normal (mkGetUserAnswer (Some u) None)
    /\ form_question PollSamples.form = Some q
    /\ UpdatePoll (js "Tabs or spaces?") [ js "Tabs"; js "Spaces" ]
         (js "poll-7") (js "user-1")
       = UpdatePoll q (List.filter truthy (form_options PollSamples.form))
           (js "poll-7") (user_id u).
Proof.
  destruct (updatePoll_writes_own_poll PollSamples.env_signed_in (js "poll-7")
              PollSamples.form
              (UpdatePoll (js "Tabs or spaces?") [ js "Tabs"; js "Spaces" ]
                 (js "poll-7") (js "user-1")))
    as (u & q & Hu & Hq & _ & _ & _ & He).
  - left. reflexivity.
  - exists u, q. repeat split; assumption.
Defined.

End PollFacts.
